(** * ModelViewer: the highlight routine, the procedural assembly table and
      the viewer panel's state transitions

    A shallow embedding of [src/components/ModelViewer.jsx].  The file
    holds two revisions of the viewer; both carry a routine called
    [updateHighlight] which differ in how the selected part is recognised
    (by lower-cased name in the procedural revision, by uuid in the
    model-loading revision) and in the emissive intensity of the selected
    preset.  The embedding takes the revision as a parameter ([Variant]).

    Materials are heap objects: a mesh holds a reference to its active
    material and, once visited, one to the cached original, and the
    routine restores "by reference".  The heap is a finite map from
    locations to material values; [clone] allocates a fresh location.

    The routine is embedded for any case-folding function (section
    [Routine]): what is proved of it there holds of
    [String.prototype.toLowerCase], whatever the script of the names. *)

From Stdlib Require Import String Ascii QArith.
From stdpp Require Import gmap strings list fin_maps.

Local Open Scope string_scope.
#[local] Set Warnings "-clear-no-such-hyp".

(** ** JavaScript strings

    A string is the sequence of bytes of its UTF-8 form.  [trim] strips
    the white space and the line terminators of the language at both
    ends: TAB, LF, VT, FF, CR, SPACE, U+00A0, U+1680, U+2000 to U+200A,
    U+2028, U+2029, U+202F, U+205F, U+3000 and U+FEFF.  [includes] is the
    substring test.  [toLowerCase] folds the letters A-Z and carries every
    other byte unchanged: it is [String.prototype.toLowerCase] on the
    strings whose cased letters are all ASCII, and serves the loader and
    the examples on the demo scenes. *)

Module JsString.

Definition isUpper (c : ascii) : bool :=
  let n := nat_of_ascii c in (65 <=? n)%nat && (n <=? 90)%nat.

Definition lowerChar (c : ascii) : ascii :=
  if isUpper c then ascii_of_nat (nat_of_ascii c + 32) else c.

Fixpoint toLowerCase (s : string) : string :=
  match s with
  | EmptyString => EmptyString
  | String c r => String (lowerChar c) (toLowerCase r)
  end.

Definition isEmpty (s : string) : bool :=
  match s with EmptyString => true | String _ _ => false end.

(** White space of one byte: TAB, LF, VT, FF, CR and SPACE. *)
Definition isWhiteSpace (c : ascii) : bool :=
  let n := nat_of_ascii c in ((9 <=? n)%nat && (n <=? 13)%nat) || (n =? 32)%nat.

(** White space of two bytes: U+00A0 (C2 A0). *)
Definition isWhiteSpace2 (c d : ascii) : bool :=
  (nat_of_ascii c =? 194)%nat && (nat_of_ascii d =? 160)%nat.

(** White space of three bytes: U+1680 (E1 9A 80), U+2000 to U+200A
    (E2 80 80 to E2 80 8A), U+2028, U+2029 and U+202F (E2 80 A8, A9, AF),
    U+205F (E2 81 9F), U+3000 (E3 80 80) and U+FEFF (EF BB BF). *)
Definition isWhiteSpace3 (c d e : ascii) : bool :=
  let n := nat_of_ascii c in
  let m := nat_of_ascii d in
  let k := nat_of_ascii e in
  ((n =? 225) && (m =? 154) && (k =? 128))%nat ||
  ((n =? 226) && (m =? 128) &&
   (((128 <=? k) && (k <=? 138)) || (k =? 168) || (k =? 169) || (k =? 175)))%nat ||
  ((n =? 226) && (m =? 129) && (k =? 159))%nat ||
  ((n =? 227) && (m =? 128) && (k =? 128))%nat ||
  ((n =? 239) && (m =? 187) && (k =? 191))%nat.

(** The number of bytes of the white-space character at the head of the
    string, 0 when there is none. *)
Definition whiteSpaceLength (s : string) : nat :=
  match s with
  | EmptyString => 0
  | String c r1 =>
      if isWhiteSpace c then 1
      else
        match r1 with
        | EmptyString => 0
        | String d r2 =>
            if isWhiteSpace2 c d then 2
            else
              match r2 with
              | EmptyString => 0
              | String e _ => if isWhiteSpace3 c d e then 3 else 0
              end
        end
  end.

Fixpoint trimStart (s : string) : string :=
  match s with
  | EmptyString => EmptyString
  | String _ r1 =>
      match whiteSpaceLength s with
      | 0 => s
      | 1 => trimStart r1
      | 2 => match r1 with
             | String _ r2 => trimStart r2
             | EmptyString => s
             end
      | _ => match r1 with
             | String _ (String _ r3) => trimStart r3
             | _ => s
             end
      end
  end.

(** A string made of white space only (the empty string included). *)
Fixpoint allWhiteSpace (s : string) : bool :=
  match s with
  | EmptyString => true
  | String _ r1 =>
      match whiteSpaceLength s with
      | 0 => false
      | 1 => allWhiteSpace r1
      | 2 => match r1 with
             | String _ r2 => allWhiteSpace r2
             | EmptyString => false
             end
      | _ => match r1 with
             | String _ (String _ r3) => allWhiteSpace r3
             | _ => false
             end
      end
  end.

(** The string without the white space that ends it. *)
Fixpoint trimEnd (s : string) : string :=
  match s with
  | EmptyString => EmptyString
  | String c r => if allWhiteSpace s then EmptyString else String c (trimEnd r)
  end.

Definition trim (s : string) : string := trimEnd (trimStart s).

Fixpoint startsWith (s p : string) : bool :=
  match p, s with
  | EmptyString, _ => true
  | String _ _, EmptyString => false
  | String a p', String b s' => Ascii.eqb a b && startsWith s' p'
  end.

Fixpoint includes (s p : string) : bool :=
  startsWith s p ||
  match s with
  | EmptyString => false
  | String _ r => includes r p
  end.

End JsString.

Import JsString.

(** ** Materials and the heap *)

Definition Color := string.

(** The fields of a THREE material that the routine reads or writes, plus
    [metalness] as a representative of those it leaves alone.  The numeric
    fields only ever receive literals, so a rational stands for each. *)
Record Material := mkMaterial {
  color : Color;
  emissive : Color;
  emissiveIntensity : Q;
  transparent : bool;
  opacity : Q;
  roughness : Q;
  metalness : Q
}.

Definition loc := positive.

Abbreviation Heap := (gmap loc Material).

(** [new this.constructor().copy(this)]: a new object with the same field
    values. *)
Definition alloc (h : Heap) (m : Material) : loc * Heap :=
  let l := fresh (dom h) in (l, <[l := m]> h).

Inductive Abort :=
  | TypeError      (* a method call on a value that has no such method *)
  | DanglingRef.   (* a reference to no object: cannot arise in JavaScript *)

Definition clone (h : Heap) (l : loc) : Abort + (loc * Heap) :=
  match h !! l with
  | Some m => inr (alloc h m)
  | None => inl DanglingRef
  end.

(** ** The scene graph *)

(** [Mesh.material] is a material, or an array of materials for a mesh
    with several material groups (what the FBX loader builds for such a
    mesh); groups and other non-mesh nodes may have none. *)
Inductive MaterialSlot :=
  | MatNone
  | MatOne (l : loc)
  | MatArray (ls : list loc).

Record UserData := mkUserData {
  originalMaterial : option loc;
  extras : list (string * string)
}.

(** A number of the source: a literal, or [Math.PI/2]. *)
Inductive Num :=
  | Lit (q : Q)
  | HalfPi.

(** A node's own fields. *)
Record Props := mkProps {
  name : string;
  uuid : string;
  isMesh : bool;
  material : MaterialSlot;
  userData : UserData;
  position : list Q;
  rotation : list Num;
  geometry : string
}.

#[local] Set Warnings "-register-all".
Inductive Object3D := Obj (p : Props) (children : list Object3D).

Definition props (o : Object3D) : Props := match o with Obj p _ => p end.
Definition children (o : Object3D) : list Object3D := match o with Obj _ cs => cs end.

(** ** Presets, the first-visit snapshot and the walk *)

Inductive Variant :=
  | ByName    (* the procedural revision: selection by part name *)
  | ByUuid.   (* the model-loading revision: selection by uuid *)

Definition searchColor : Color := "#3b82f6".
Definition selectColor : Color := "#f97316".
Definition ghostColor : Color := "#cccccc".

Definition selectIntensity (v : Variant) : Q :=
  match v with ByName => 6 # 10 | ByUuid => 8 # 10 end.

(** JavaScript truthiness of a string-or-undefined. *)
Definition truthy (o : option string) : bool :=
  match o with
  | Some s => negb (isEmpty s)
  | None => false
  end.

Definition selectedPreset (v : Variant) (m : Material) : Material :=
  {| color := selectColor;
     emissive := selectColor;
     emissiveIntensity := selectIntensity v;
     transparent := false;
     opacity := 1;
     roughness := roughness m;
     metalness := metalness m |}.

Definition searchPreset (m : Material) : Material :=
  {| color := searchColor;
     emissive := searchColor;
     emissiveIntensity := 5 # 10;
     transparent := false;
     opacity := 1;
     roughness := roughness m;
     metalness := metalness m |}.

Definition ghostPreset (m : Material) : Material :=
  {| color := ghostColor;
     emissive := emissive m;
     emissiveIntensity := emissiveIntensity m;
     transparent := true;
     opacity := 1 # 10;
     roughness := 1;
     metalness := metalness m |}.

Definition setOriginal (child : Props) (l : loc) : Props :=
  {| name := name child; uuid := uuid child; isMesh := isMesh child;
     material := material child;
     userData := {| originalMaterial := Some l; extras := extras (userData child) |};
     position := position child; rotation := rotation child;
     geometry := geometry child |}.

Definition setMaterial (child : Props) (l : loc) : Props :=
  {| name := name child; uuid := uuid child; isMesh := isMesh child;
     material := MatOne l;
     userData := userData child;
     position := position child; rotation := rotation child;
     geometry := geometry child |}.

(** Step 1 of the callback: [if (!child.userData.originalMaterial)
    child.userData.originalMaterial = child.material.clone()]. *)
Definition initOriginal (h : Heap) (child : Props) : Abort + (Props * loc * Heap) :=
  match originalMaterial (userData child) with
  | Some c => inr (child, c, h)
  | None =>
      match material child with
      | MatOne m =>
          match clone h m with
          | inr (c, h') => inr (setOriginal child c, c, h')
          | inl e => inl e
          end
      | MatArray _ => inl TypeError
      | MatNone => inl TypeError
      end
  end.

(** [Object3D.traverse]: the callback on the node, then on each child in
    order.  An exception ends the walk: the nodes not yet reached keep
    their state. *)
Fixpoint traverse (f : Heap → Props → Abort + (Props * Heap)) (h : Heap) (o : Object3D)
    : Object3D * Heap * option Abort :=
  match o with
  | Obj p cs =>
      match f h p with
      | inl e => (o, h, Some e)
      | inr (p', h1) =>
          let '(cs', h2, r) :=
            (fix walk (l : list Object3D) (h : Heap) : list Object3D * Heap * option Abort :=
               match l with
               | [] => ([], h, None)
               | c :: rest =>
                   match traverse f h c with
                   | (c', h', Some e) => (c' :: rest, h', Some e)
                   | (c', h', None) =>
                       let '(rest', h'', r) := walk rest h' in (c' :: rest', h'', r)
                   end
               end) cs h1 in
          (Obj p' cs', h2, r)
      end
  end.

(** The loop over the children, by name. *)
Fixpoint traverseAll (f : Heap → Props → Abort + (Props * Heap)) (l : list Object3D) (h : Heap)
    : list Object3D * Heap * option Abort :=
  match l with
  | [] => ([], h, None)
  | c :: rest =>
      match traverse f h c with
      | (c', h', Some e) => (c' :: rest, h', Some e)
      | (c', h', None) =>
          let '(rest', h'', r) := traverseAll f rest h' in (c' :: rest', h'', r)
      end
  end.

(** ** Reading the scene *)

(** The nodes in the order [traverse] reaches them. *)
Fixpoint nodes (o : Object3D) : list Props :=
  match o with
  | Obj p cs => p :: flat_map nodes cs
  end.

Definition cache (p : Props) : option loc := originalMaterial (userData p).

(** The branch test [!normalizedSearch && !selected]. *)
Definition restoreMode (normalizedSearch : string) (selected : option string) : bool :=
  isEmpty normalizedSearch && negb (truthy selected).

Definition allocated (h : Heap) (l : loc) : bool :=
  match h !! l with Some _ => true | None => false end.

(** Every reference a mesh holds points to a material of the heap.
    JavaScript has no dangling references; the heap model needs it said. *)
Definition wfProps (h : Heap) (p : Props) : bool :=
  negb (isMesh p) ||
  (match material p with
   | MatNone => true
   | MatOne l => allocated h l
   | MatArray ls => forallb (allocated h) ls
   end &&
   match cache p with
   | Some c => allocated h c
   | None => true
   end).

Definition wfScene (h : Heap) (o : Object3D) : bool := forallb (wfProps h) (nodes o).

(** A mesh on which step 1 of the callback does not throw: it has a cached
    original already, or its material slot holds one material. *)
Definition cloneable (p : Props) : bool :=
  negb (isMesh p) ||
  match cache p, material p with
  | Some _, _ => true
  | None, MatOne _ => true
  | None, _ => false
  end.

Definition cloneableScene (o : Object3D) : bool := forallb cloneable (nodes o).

(** The field values behind a material slot. *)
Definition materialValues (h : Heap) (p : Props) : list (option Material) :=
  match material p with
  | MatNone => []
  | MatOne l => [h !! l]
  | MatArray ls => map (λ l, h !! l) ls
  end.

(** What the routine leaves alone: a mesh without its material reference
    and its cache entry, any other node whole. *)
Definition mask (p : Props) : Props :=
  if isMesh p then
    {| name := name p; uuid := uuid p; isMesh := true;
       material := MatNone;
       userData := {| originalMaterial := None; extras := extras (userData p) |};
       position := position p; rotation := rotation p; geometry := geometry p |}
  else p.

Fixpoint frame (o : Object3D) : Object3D :=
  match o with
  | Obj p cs => Obj (mask p) (map frame cs)
  end.

(** The part's identifier: its name in the procedural revision (no other
    exists there), its uuid in the model-loading one. *)
Definition identifier (v : Variant) (p : Props) : string :=
  match v with
  | ByName => name p
  | ByUuid => uuid p
  end.

(** ** Specification predicates *)

(** The value of the cached original or, where none is cached yet, of the
    material the mesh holds and the first visit will copy: the mesh's
    material before any highlight. *)
Definition snapshotValue (h : Heap) (p : Props) : option Material :=
  match cache p with
  | Some c => h !! c
  | None =>
      match material p with
      | MatOne m => h !! m
      | _ => None
      end
  end.

(** What a call keeps of a node: its kind, its names and its snapshot. *)
Definition kept (h h' : Heap) (p p' : Props) : Prop :=
  isMesh p' = isMesh p ∧
  (isMesh p = true →
   is_Some (snapshotValue h p) ∧ snapshotValue h' p' = snapshotValue h p).

(** Two nodes show the same material values, each in its own heap, and
    those values are all there. *)
Definition agree (h1 h2 : Heap) (p1 p2 : Props) : Prop :=
  isMesh p1 = true →
  Forall is_Some (materialValues h1 p1) ∧
  materialValues h2 p2 = materialValues h1 p1.

(** What a call of the callback does to the cache entry and to the active
    material reference of a node, in any mode. *)
Definition captured (ns : string) (sel : option string) (h h' : Heap) (p p' : Props) : Prop :=
  (∀ c, cache p = Some c → cache p' = Some c) ∧
  (∀ c, cache p = None → cache p' = Some c →
        h !! c = None ∧
        ∃ m mv, material p = MatOne m ∧ h' !! m = Some mv ∧ h' !! c = Some mv) ∧
  (isMesh p = true → is_Some (cache p')) ∧
  (restoreMode ns sel = false →
   p' = p ∨ ∃ l, material p' = MatOne l ∧ h !! l = None ∧ cache p' ≠ Some l).

(** A node is related by [Q], or the walk was cut short and the node is
    as it was. *)
Definition reached (Q : Heap → Heap → Props → Props → Prop)
    (h h' : Heap) (r : option Abort) (p p' : Props) : Prop :=
  Q h h' p p' ∨ (is_Some r ∧ p' = p).

(** How a walk over the nodes [l] ends when the callback succeeds on the
    nodes that pass [ok] and throws [E] on the others. *)
Definition outcome (ok : Props → bool) (E : Abort) (l : list Props) : option Abort :=
  if forallb ok l then None else Some E.

(** A null root is well-formed. *)
Definition wfRoot (h : Heap) (scene : option Object3D) : bool :=
  match scene with
  | None => true
  | Some root => wfScene h root
  end.

(** ** Counting *)

(** The materials one call of the callback creates on a node: the cached
    original on a first visit, and the clone a preset is written to. *)
Definition allocations (ns : string) (sel : option string) (p : Props) : nat :=
  if isMesh p then
    (match cache p with None => 1 | Some _ => 0 end) +
    (if restoreMode ns sel then 0 else 1)
  else 0.

(** The nodes of a walk that threw: those before the throwing node,
    related by [Q]; that node and those after it, as they were. *)
Definition cutAt (f : Heap → Props → Abort + (Props * Heap))
    (Q : Heap → Heap → Props → Props → Prop)
    (h h' : Heap) (e : Abort) (l l' : list Props) : Prop :=
  ∃ pre bad post pre' hb,
    l = (pre ++ bad :: post)%list ∧ l' = (pre' ++ bad :: post)%list ∧
    Forall2 (Q h h') pre pre' ∧ h ⊆ hb ∧ f hb bad = inl e.

(** ** The viewer panel *)

Module Viewer.

Record System := mkSystem {
  id : nat;
  name : string;
  content : string;   (* the [type] tag, or the [path] of the model file *)
  description : string
}.

(** What [onPartSelect] hands up: the part's name and, for a loaded model,
    the uuid of the clicked mesh. *)
Record Part := mkPart {
  partId : option string;
  partName : string
}.

Record State := mkState {
  activeSystem : System;
  selectedPart : option Part;
  searchTerm : string;
  autoRotate : bool
}.

Definition setActiveSystem (system : System) (st : State) : State :=
  {| activeSystem := system; selectedPart := selectedPart st;
     searchTerm := searchTerm st; autoRotate := autoRotate st |}.

Definition setSelectedPart (part : option Part) (st : State) : State :=
  {| activeSystem := activeSystem st; selectedPart := part;
     searchTerm := searchTerm st; autoRotate := autoRotate st |}.

Definition setSearchTerm (s : string) (st : State) : State :=
  {| activeSystem := activeSystem st; selectedPart := selectedPart st;
     searchTerm := s; autoRotate := autoRotate st |}.

Definition setAutoRotate (b : bool) (st : State) : State :=
  {| activeSystem := activeSystem st; selectedPart := selectedPart st;
     searchTerm := searchTerm st; autoRotate := b |}.

Definition handleSystemChange (system : System) (st : State) : State :=
  setSearchTerm "" (setSelectedPart None (setActiveSystem system st)).

Definition handlePartSelect (part : Part) (st : State) : State :=
  setSelectedPart (Some part) st.

Definition SYSTEMS : list System :=
  [ mkSystem 1 "Main Engine Assembly" "demo-engine"
      "Primary propulsion unit. Contains Pistons, Gears, and Housing.";
    mkSystem 2 "Hydraulic Pump System" "demo-pump"
      "Fluid control module. Contains Valves and Reservoirs.";
    mkSystem 3 "Control Circuit Alpha" "demo-circuit"
      "Main PCB unit. Contains Chips and Capacitors." ].

(** The selection the panel passes to the routine: [selectedPart?.name] in
    the procedural revision, [selectedPart?.id] in the model-loading one. *)
Definition selection (v : Variant) (st : State) : option string :=
  match selectedPart st with
  | None => None
  | Some part =>
      match v with
      | ByName => Some (partName part)
      | ByUuid => partId part
      end
  end.

End Viewer.

(** ** The procedural assembly *)

Module Procedural.

Inductive Geo := box | sphere | cylinder | torus.

Record Part := mkPart {
  name : string;
  geo : Geo;
  args : list Q;
  pos : list Q;
  rot : option (list Num);
  color : Color
}.

Local Open Scope Q_scope.

(** The body of the [useMemo] in [ProceduralAssembly]. *)
Definition parts (type : string) : list Part :=
  if String.eqb type "demo-engine" then
    [ mkPart "Engine-Housing-Outer" box [4; 3; 4] [0; 0; 0] None "#475569";
      mkPart "Piston-001" cylinder [0.5; 0.5; 2; 32] [-1; 2; -1] None "#cbd5e1";
      mkPart "Piston-002" cylinder [0.5; 0.5; 2; 32] [1; 2; -1] None "#cbd5e1";
      mkPart "Piston-003" cylinder [0.5; 0.5; 2; 32] [-1; 2; 1] None "#cbd5e1";
      mkPart "Piston-004" cylinder [0.5; 0.5; 2; 32] [1; 2; 1] None "#cbd5e1";
      mkPart "Gear-Drive-Main" torus [1.2; 0.3; 16; 100] [0; 0; 2.1] None "#fbbf24";
      mkPart "Shaft-Coupling" box [0.5; 0.5; 5] [2.5; 0; 0] None "#94a3b8" ]
  else if String.eqb type "demo-pump" then
    [ mkPart "Reservoir-Tank" sphere [2; 32; 32] [0; 0; 0] None "#3b82f6";
      mkPart "Valve-Inlet" box [1; 1; 1] [-2; 0; 0] None "#ef4444";
      mkPart "Valve-Outlet" box [1; 1; 1] [2; 0; 0] None "#22c55e";
      mkPart "Pipe-Connector" cylinder [0.2; 0.2; 6; 16] [0; 2; 0]
        (Some [Lit 0; Lit 0; HalfPi]) "#64748b" ]
  else
    [ mkPart "PCB-Board-Base" box [5; 0.2; 5] [0; 0; 0] None "#064e3b";
      mkPart "Chip-CPU" box [1; 0.5; 1] [0; 0.5; 0] None "#1e293b";
      mkPart "Capacitor-C1" cylinder [0.3; 0.3; 0.8; 16] [-1.5; 0.5; -1.5] None "#eab308";
      mkPart "Capacitor-C2" cylinder [0.3; 0.3; 0.8; 16] [-1.0; 0.5; -1.5] None "#eab308";
      mkPart "Resistor-Array" box [2; 0.3; 0.5] [1; 0.4; 1.5] None "#000000" ].

Definition geoName (g : Geo) : string :=
  match g with
  | box => "box" | sphere => "sphere" | cylinder => "cylinder" | torus => "torus"
  end.

End Procedural.

(** The [<meshStandardMaterial color=.. metalness={0.4} roughness={0.5}/>]
    each part is rendered with (the other fields at the library's
    defaults). *)
Definition standardMaterial (c : Color) : Material :=
  {| color := c; emissive := "#000000"; emissiveIntensity := 1;
     transparent := false; opacity := 1;
     roughness := 5 # 10; metalness := 4 # 10 |}.

(** The mesh a part is rendered as, its material at location [l]. *)
Definition partMesh (l : loc) (part : Procedural.Part) : Object3D :=
  Obj {| name := Procedural.name part;
         uuid := "mesh-" ++ Procedural.name part;
         isMesh := true;
         material := MatOne l;
         userData := {| originalMaterial := None; extras := [] |};
         position := Procedural.pos part;
         rotation := match Procedural.rot part with
                     | Some r => r
                     | None => [Lit 0; Lit 0; Lit 0]
                     end;
         geometry := Procedural.geoName (Procedural.geo part) |} [].

Fixpoint partMeshes (l : loc) (ps : list Procedural.Part) : list Object3D * Heap :=
  match ps with
  | [] => ([], ∅)
  | part :: rest =>
      let '(ms, h) := partMeshes (Pos.succ l) rest in
      (partMesh l part :: ms, <[l := standardMaterial (Procedural.color part)]> h)
  end.

(** The [<group>] of [ProceduralAssembly] as first mounted, and its heap.
    The panel starts on the first entry of [SYSTEMS], so what is mounted
    is the engine.  A change of system mounts nothing: the meshes are
    keyed by their index and stay, with what the routine has cached on
    them, so no scene is built here for the other two tables. *)
Definition assembly : Object3D * Heap :=
  let type := from_option Viewer.content "" (head Viewer.SYSTEMS) in
  let '(ms, h) := partMeshes 1%positive (Procedural.parts type) in
  (Obj {| name := ""; uuid := "group"; isMesh := false; material := MatNone;
          userData := {| originalMaterial := None; extras := [] |};
          position := []; rotation := []; geometry := "" |} ms, h).

(** A loaded model with a mesh of two material groups between two
    single-material meshes. *)
Definition multiMaterialHeap : Heap :=
  <[1%positive := standardMaterial "#8b5a2b"]>
    (<[2%positive := standardMaterial "#d4af37"]> ∅).

Definition multiMaterialScene : Object3D :=
  let mesh n u m :=
    Obj {| name := n; uuid := u; isMesh := true; material := m;
           userData := {| originalMaterial := None; extras := [] |};
           position := []; rotation := []; geometry := "buffer" |} [] in
  Obj {| name := "Desk"; uuid := "u0"; isMesh := false; material := MatNone;
         userData := {| originalMaterial := None; extras := [] |};
         position := []; rotation := []; geometry := "" |}
      [ mesh "Desk-Top" "u1" (MatOne 1%positive);
        mesh "Desk-Drawer" "u2" (MatArray [1%positive; 2%positive]);
        mesh "Desk-Leg" "u3" (MatOne 1%positive) ].

Definition engineScene : Object3D := fst assembly.
Definition engineHeap : Heap := snd assembly.

(** The colour of a node's active material. *)
Definition activeColor (h : Heap) (p : Props) : option Color :=
  match material p with
  | MatOne l => color <$> h !! l
  | _ => None
  end.

(** ** The model loader *)

(** [String.prototype.endsWith]. *)
Fixpoint endsWith (s p : string) : bool :=
  String.eqb s p ||
  match s with
  | EmptyString => false
  | String _ r => endsWith r p
  end.

(** The two components [SmartModel] chooses between. *)
Inductive ModelLoader :=
  | FbxModel    (* [useFBX] *)
  | GltfModel.  (* [useGLTF] *)

Definition SmartModel (url : string) : ModelLoader :=
  let isFbx := endsWith (toLowerCase url) ".fbx" in
  if isFbx then FbxModel else GltfModel.

(** ** Clicks *)

(** A key of a [userData] object. *)
Fixpoint getKey (k : string) (kv : list (string * string)) : option string :=
  match kv with
  | [] => None
  | (k', x) :: rest => if String.eqb k k' then Some x else getKey k rest
  end.

(** The [onClick] of [BaseInteractiveModel]:
    [{ id: e.object.uuid, name: e.object.name, ...e.object.userData }],
    read at the two keys the panel uses.  The spread comes last, so a key of
    [userData] replaces the one written before it. *)
Definition clickedObject (p : Props) : Viewer.Part :=
  {| Viewer.partId := Some (default (uuid p) (getKey "id" (extras (userData p))));
     Viewer.partName := default (name p) (getKey "name" (extras (userData p))) |}.

(** The [onClick] of a mesh of [ProceduralAssembly]: [onPartSelect(part)];
    a part descriptor has no [id]. *)
Definition clickedPart (part : Procedural.Part) : Viewer.Part :=
  {| Viewer.partId := None; Viewer.partName := Procedural.name part |}.

(** ** The controls of the panel *)

Module Panel.

Inductive Event :=
  | SystemClick (system : Viewer.System)   (* a button of the system list *)
  | BackClick                              (* "Back to List" *)
  | PartClick (part : Viewer.Part)         (* a click on a mesh of the canvas *)
  | SearchInput (text : string)            (* [onChange] of the search box *)
  | ClearClick                             (* "Clear" *)
  | ResetViewClick                         (* "Reset View" *)
  | RotateClick.                           (* "Toggle Rotation" *)

#[global] Instance System_eq_dec : EqDecision Viewer.System.
Proof. solve_decision. Defined.

(** The sidebar shows the detail view when a part is selected and the
    system list otherwise. *)
Definition detailView (st : Viewer.State) : bool :=
  match Viewer.selectedPart st with Some _ => true | None => false end.

(** The handler of "Reset View" (the camera is the library's). *)
Definition resetView (st : Viewer.State) : Viewer.State :=
  Viewer.setSelectedPart None (Viewer.setSearchTerm "" st).

(** The handler of an event, or [None] where the control is not rendered:
    the system buttons (one per entry of the table) only in the list view,
    "Back to List" only in the detail view, "Clear" only beside a
    non-empty search text. *)
Definition handle (systems : list Viewer.System) (st : Viewer.State) (e : Event)
    : option Viewer.State :=
  match e with
  | SystemClick system =>
      if negb (detailView st) && bool_decide (system ∈ systems)
      then Some (Viewer.handleSystemChange system st) else None
  | BackClick =>
      if detailView st then Some (Viewer.setSelectedPart None st) else None
  | PartClick part => Some (Viewer.handlePartSelect part st)
  | SearchInput text => Some (Viewer.setSearchTerm text st)
  | ClearClick =>
      if negb (isEmpty (Viewer.searchTerm st))
      then Some (Viewer.setSearchTerm "" st) else None
  | ResetViewClick => Some (resetView st)
  | RotateClick => Some (Viewer.setAutoRotate (negb (Viewer.autoRotate st)) st)
  end.

Fixpoint run (systems : list Viewer.System) (st : Viewer.State) (events : list Event)
    : option Viewer.State :=
  match events with
  | [] => Some st
  | e :: rest =>
      match handle systems st e with
      | Some st' => run systems st' rest
      | None => None
      end
  end.

(** The four [useState] initial values; [SYSTEMS[0]] is there when the
    table is not empty. *)
Definition initial (systems : list Viewer.System) : option Viewer.State :=
  match systems with
  | [] => None
  | first :: _ =>
      Some {| Viewer.activeSystem := first; Viewer.selectedPart := None;
              Viewer.searchTerm := ""; Viewer.autoRotate := false |}
  end.

(** The table of the model-loading revision. *)
Definition LOADED_SYSTEMS : list Viewer.System :=
  [ Viewer.mkSystem 1 "Desk" "/models/source/antique_wooden_desk_with_props.glb"
      "Imported GLB model" ].

End Panel.

(** ** Samples *)

(** A search text of white space only: a space, a no-break space
    (U+00A0), a tab, an ideographic space (U+3000) and a line separator
    (U+2028), in UTF-8. *)
Definition blankText : string :=
  string_of_list_ascii
    (map ascii_of_nat [32; 194; 160; 9; 227; 128; 128; 226; 128; 168]%nat).

(** A mesh of a loaded model as the GLTF loader leaves it, its authored
    name kept in [userData]. *)
Definition plainProps : Props :=
  {| name := "Piston-001"; uuid := "mesh-Piston-001"; isMesh := true;
     material := MatOne 2%positive;
     userData := {| originalMaterial := None; extras := [("name", "Piston.001")] |};
     position := []; rotation := []; geometry := "buffer" |}.

(** A mesh whose author gave it an [id] property. *)
Definition taggedProps : Props :=
  {| name := "Piston-001"; uuid := "mesh-Piston-001"; isMesh := true;
     material := MatOne 2%positive;
     userData := {| originalMaterial := None;
                    extras := [("name", "Piston.001"); ("id", "mesh-Piston-002")] |};
     position := []; rotation := []; geometry := "buffer" |}.

(** ** The highlight routine *)

Section Routine.

(** [String.prototype.toLowerCase].  Nothing is asked of it: the routine
    is embedded, and what follows is proved, for any function of strings
    in its place.  [JsString.toLowerCase] is the instance of the examples. *)
Variable toLowerCase : string → string.

(** [(child.name || '').toLowerCase()]: a name is a string, and the empty
    string is its own default. *)
Definition partName (child : Props) : string := toLowerCase (name child).

Definition isSelected (v : Variant) (child : Props) (selected : option string) : bool :=
  match selected with
  | Some s =>
      negb (isEmpty s) &&
      match v with
      | ByName => String.eqb (partName child) (toLowerCase s)
      | ByUuid => String.eqb (uuid child) s
      end
  | None => false
  end.

Definition isSearchMatch (normalizedSearch : string) (child : Props) : bool :=
  negb (isEmpty normalizedSearch) && includes (partName child) normalizedSearch.

(** The field writes of the three-way branch on a fresh clone. *)
Definition preset (v : Variant) (normalizedSearch : string) (selected : option string)
    (child : Props) : Material → Material :=
  if isSelected v child selected then selectedPreset v
  else if isSearchMatch normalizedSearch child then searchPreset
  else ghostPreset.

(** The callback handed to [scene.traverse].  The only call that can throw
    on a JavaScript heap is the [clone] of step 1, before any write; the
    field writes on the new clone are an [alter] at its location. *)
Definition visit (v : Variant) (normalizedSearch : string) (selected : option string)
    (h : Heap) (child : Props) : Abort + (Props * Heap) :=
  if isMesh child then
    match initOriginal h child with
    | inl e => inl e
    | inr (child1, orig, h1) =>
        if isEmpty normalizedSearch && negb (truthy selected) then
          inr (setMaterial child1 orig, h1)
        else
          match clone h1 orig with
          | inl e => inl e
          | inr (newMat, h2) =>
              inr (setMaterial child1 newMat,
                   alter (preset v normalizedSearch selected child1) newMat h2)
          end
    end
  else inr (child, h).

(** [scene] is [None] for a null or undefined root. *)
Definition updateHighlight (v : Variant) (scene : option Object3D) (searchTerm : string)
    (selected : option string) (h : Heap) : option Object3D * Heap * option Abort :=
  match scene with
  | None => (None, h, None)
  | Some root =>
      let normalizedSearch := trim (toLowerCase searchTerm) in
      let '(root', h', r) := traverse (visit v normalizedSearch selected) h root in
      (Some root', h', r)
  end.

(** The material value a reached mesh ends with, from the value [mv] of its
    cached original. *)
Definition render (v : Variant) (ns : string) (sel : option string) (p : Props)
    (mv : Material) : Material :=
  if restoreMode ns sel then mv else preset v ns sel p mv.

(** A node before ([p], heap [h]) and after ([p'], heap [h']) one successful
    call of the callback. *)
Definition visited (v : Variant) (ns : string) (sel : option string)
    (h h' : Heap) (p p' : Props) : Prop :=
  if isMesh p then
    ∃ c l mv,
      p' = setMaterial (setOriginal p c) l ∧
      h' !! c = Some mv ∧
      h' !! l = Some (render v ns sel p mv) ∧
      (if restoreMode ns sel then l = c else h !! l = None ∧ l ≠ c) ∧
      match cache p with
      | Some c0 => c = c0
      | None => h !! c = None ∧ ∃ m, material p = MatOne m ∧ h' !! m = Some mv
      end
  else p' = p.

(** ** A history of calls *)

(** The effect that calls the routine runs again on every change of the
    search text or of the selection; an exception ends the history. *)
Fixpoint updateHighlightSeq (v : Variant) (calls : list (string * option string))
    (scene : option Object3D) (h : Heap) : option Object3D * Heap * option Abort :=
  match calls with
  | [] => (scene, h, None)
  | (s, sel) :: rest =>
      match updateHighlight v scene s sel h with
      | (scene', h', None) => updateHighlightSeq v rest scene' h'
      | r => r
      end
  end.

(** The second walk of a walked tree ends the way the first did and
    leaves the material values of every mesh as the first left them. *)
Definition walksTwice (v : Variant) (ns : string) (sel : option string) (h0 : Heap)
    (o : Object3D) : Prop :=
  ∀ h o1 h1 r, h0 ⊆ h → Forall (λ p, wfProps h0 p = true) (nodes o) →
    traverse (visit v ns sel) h o = (o1, h1, r) →
    ∀ hs, h1 ⊆ hs →
      ∃ o2 h2, traverse (visit v ns sel) hs o1 = (o2, h2, r) ∧ hs ⊆ h2 ∧
               Forall2 (agree h1 h2) (nodes o1) (nodes o2).

(** The effect of [ProceduralAssembly] and of [BaseInteractiveModel]: the
    routine on the scene, with the panel's search text and selection. *)
Definition highlightEffect (v : Variant) (st : Viewer.State) (scene : option Object3D)
    (h : Heap) : option Object3D * Heap * option Abort :=
  updateHighlight v scene (Viewer.searchTerm st) (Viewer.selection v st) h.

(** * Proofs *)

(** ** Unfolding the walk *)

Lemma traverse_unfold f h p cs :
  traverse f h (Obj p cs) =
  match f h p with
  | inl e => (Obj p cs, h, Some e)
  | inr (p', h1) =>
      let '(cs', h2, r) := traverseAll f cs h1 in (Obj p' cs', h2, r)
  end.
Proof.
  simpl. destruct (f h p) as [e | [p' h1]]; [done |].
  match goal with
  | |- context [?w cs h1] =>
      lazymatch w with
      | traverseAll _ => fail
      | _ => assert (Hwalk : ∀ l h0, w l h0 = traverseAll f l h0)
      end
  end.
  { induction l as [| c rest IH]; intros h0; [done |].
    simpl. destruct (traverse f h0 c) as [[c' h'] [e |]]; [done |].
    by rewrite IH. }
  by rewrite Hwalk.
Qed.

(** ** The heap only grows *)

Lemma allocated_Some (h : Heap) l : allocated h l = true ↔ is_Some (h !! l).
Proof.
  unfold allocated. destruct (h !! l); split; intros H; try done; by destruct H.
Qed.

Lemma allocated_weaken (h h' : Heap) l : h ⊆ h' → allocated h l = true → allocated h' l = true.
Proof.
  rewrite !allocated_Some. intros Hsub H. by eapply lookup_weaken_is_Some.
Qed.

Lemma alloc_inv (h : Heap) m l h' :
  alloc h m = (l, h') → h !! l = None ∧ h' = <[l := m]> h.
Proof.
  unfold alloc. intros [= <- <-]. split; [| done].
  apply not_elem_of_dom. apply is_fresh.
Qed.

Lemma clone_inv (h : Heap) l l' h' :
  clone h l = inr (l', h') → ∃ m, h !! l = Some m ∧ h !! l' = None ∧ h' = <[l' := m]> h.
Proof.
  unfold clone. destruct (h !! l) as [m |] eqn:E; [| done].
  intros H. assert (Ha : alloc h m = (l', h')) by congruence.
  apply alloc_inv in Ha. naive_solver.
Qed.

Lemma clone_allocated (h : Heap) l :
  allocated h l = true → ∃ l' h', clone h l = inr (l', h').
Proof.
  unfold allocated, clone. destruct (h !! l); [| done]. intros _.
  destruct (alloc h m) as [l' h'] eqn:E. by exists l', h'.
Qed.

Lemma setOriginal_cached p c : cache p = Some c → setOriginal p c = p.
Proof.
  destruct p as [n u i m [o x] ps r g]. unfold cache. simpl. by intros ->.
Qed.

Lemma preset_setOriginal v ns sel p c : preset v ns sel (setOriginal p c) = preset v ns sel p.
Proof. done. Qed.

(** ** What one call of the callback does *)

Lemma visit_other v ns sel h p : isMesh p = false → visit v ns sel h p = inr (p, h).
Proof. unfold visit. by intros ->. Qed.

Lemma initOriginal_inv h p p1 c h1 :
  initOriginal h p = inr (p1, c, h1) →
  p1 = setOriginal p c ∧
  (cache p = Some c ∧ h1 = h ∨
   cache p = None ∧ ∃ m mv, material p = MatOne m ∧ h !! m = Some mv ∧
                            h !! c = None ∧ h1 = <[c := mv]> h).
Proof.
  unfold initOriginal. fold (cache p).
  destruct (cache p) as [c0 |] eqn:Ec.
  - intros [= <- <- <-]. split; [by rewrite setOriginal_cached | by left].
  - destruct (material p) as [| m | ls] eqn:Em; try done.
    destruct (clone h m) as [e | [c' h']] eqn:Ecl; [done |].
    intros [= <- <- <-]. split; [done |]. right. split; [done |].
    apply clone_inv in Ecl as (mv & ? & ? & ?). by exists m, mv.
Qed.

Lemma visit_mesh_inv v ns sel h p p' h' :
  isMesh p = true →
  visit v ns sel h p = inr (p', h') →
  ∃ c h1,
    (cache p = Some c ∧ h1 = h ∨
     cache p = None ∧ ∃ m mv, material p = MatOne m ∧ h !! m = Some mv ∧
                              h !! c = None ∧ h1 = <[c := mv]> h) ∧
    (restoreMode ns sel = true ∧ p' = setMaterial (setOriginal p c) c ∧ h' = h1 ∨
     restoreMode ns sel = false ∧
     ∃ mv l, h1 !! c = Some mv ∧ h1 !! l = None ∧
             p' = setMaterial (setOriginal p c) l ∧
             h' = <[l := preset v ns sel p mv]> h1).
Proof.
  unfold visit. intros ->.
  destruct (initOriginal h p) as [e | [[p1 c] h1]] eqn:Ei; [done |].
  apply initOriginal_inv in Ei as [-> Hc].
  fold (restoreMode ns sel). destruct (restoreMode ns sel) eqn:Er.
  - intros [= <- <-]. exists c, h1. split; [done |]. by left.
  - destruct (clone h1 c) as [e | [l h2]] eqn:Ecl; [done |].
    intros [= <- <-]. exists c, h1. split; [done |]. right. split; [done |].
    apply clone_inv in Ecl as (mv & ? & ? & ->).
    exists mv, l. rewrite alter_insert_eq, preset_setOriginal. done.
Qed.

Lemma visit_subseteq v ns sel h p p' h' :
  visit v ns sel h p = inr (p', h') → h ⊆ h'.
Proof.
  destruct (isMesh p) eqn:Em.
  - intros H. apply visit_mesh_inv in H as (c & h1 & Hc & Hr); [| done].
    assert (h ⊆ h1).
    { destruct Hc as [[_ ->] | (_ & m & mv & _ & _ & ? & ->)]; [done |].
      by apply insert_subseteq. }
    destruct Hr as [(_ & _ & ->) | (_ & mv & l & _ & ? & _ & ->)]; [done |].
    etrans; [done |]. by apply insert_subseteq.
  - rewrite visit_other by done. by intros [= <- <-].
Qed.

Lemma visit_mask v ns sel h p p' h' :
  visit v ns sel h p = inr (p', h') → mask p' = mask p.
Proof.
  destruct (isMesh p) eqn:Em.
  - intros H. apply visit_mesh_inv in H as (c & h1 & _ & Hr); [| done].
    assert (p' = setMaterial (setOriginal p c) c ∨
            ∃ l, p' = setMaterial (setOriginal p c) l) as [-> | [l ->]]
      by naive_solver; unfold mask; simpl; by rewrite Em.
  - rewrite visit_other by done. by intros [= <- <-].
Qed.

(** ** Walking the tree *)

Lemma Object3D_ind' (P : Object3D → Prop) :
  (∀ p cs, Forall P cs → P (Obj p cs)) → ∀ o, P o.
Proof.
  intros step. fix IH 1. intros [p cs]. apply step.
  induction cs as [| c cs IHcs]; constructor; [apply IH | exact IHcs].
Qed.

Lemma Forall2_diag {A} (R : A → A → Prop) (l : list A) :
  (∀ x, R x x) → Forall2 R l l.
Proof. intros HR. induction l; by constructor. Qed.

Lemma forallb_Forall {A} (f : A → bool) (l : list A) :
  forallb f l = true ↔ Forall (λ x, f x = true) l.
Proof.
  induction l as [| x l IH]; simpl; [by split |].
  rewrite andb_true_iff, Forall_cons, IH. done.
Qed.

Section Traverse.
Variable f : Heap → Props → Abort + (Props * Heap).
Hypothesis f_grows : ∀ h p p' h', f h p = inr (p', h') → h ⊆ h'.

(** A relation between a node before and after the walk, stated over
    the heap before and the heap after, that survives a smaller heap
    before and a larger heap after. *)
Variable Q : Heap → Heap → Props → Props → Prop.
Hypothesis Q_mono : ∀ h1 h1' h2 h2' p p',
  Q h1 h2 p p' → h1' ⊆ h1 → h2 ⊆ h2' → Q h1' h2' p p'.
Hypothesis f_Q : ∀ h p p' h', f h p = inr (p', h') → Q h h' p p'.

Lemma reached_mono h1 h1' h2 h2' r p p' :
  reached Q h1 h2 r p p' → h1' ⊆ h1 → h2 ⊆ h2' → reached Q h1' h2' r p p'.
Proof. intros [H | H] ??; [left; by eapply Q_mono | by right]. Qed.

Lemma reached_later h h' e p p' :
  reached Q h h' None p p' → reached Q h h' e p p'.
Proof. intros [H | [[? [=]] _]]. by left. Qed.

Lemma traverseAll_reached cs :
  Forall (λ o, ∀ h o' h' r, traverse f h o = (o', h', r) →
               h ⊆ h' ∧ Forall2 (reached Q h h' r) (nodes o) (nodes o')) cs →
  ∀ h cs' h' r, traverseAll f cs h = (cs', h', r) →
    h ⊆ h' ∧ Forall2 (reached Q h h' r) (flat_map nodes cs) (flat_map nodes cs').
Proof.
  induction 1 as [| c rest Hc _ IH]; intros h cs' h' r; simpl.
  - intros [= <- <- <-]. split; [done | constructor].
  - destruct (traverse f h c) as [[c' ha] [e |]] eqn:Ec.
    + intros [= <- <- <-]. apply Hc in Ec as [? Hn]. split; [done |].
      simpl. apply Forall2_app; [done |].
      apply Forall2_diag. intros x. right. by split.
    + destruct (traverseAll f rest ha) as [[rest' hb] r'] eqn:Er.
      intros [= <- <- <-]. apply Hc in Ec as [? Hn].
      apply IH in Er as [? Hr]. split; [by etrans |].
      simpl. apply Forall2_app.
      * eapply Forall2_impl; [exact Hn |]. intros x y Hxy.
        apply reached_later. by eapply reached_mono.
      * eapply Forall2_impl; [exact Hr |]. intros x y Hxy.
        by eapply reached_mono.
Qed.

Lemma traverse_reached o :
  ∀ h o' h' r, traverse f h o = (o', h', r) →
    h ⊆ h' ∧ Forall2 (reached Q h h' r) (nodes o) (nodes o').
Proof.
  induction o as [p cs IH] using Object3D_ind'. intros h o' h' r.
  rewrite traverse_unfold. destruct (f h p) as [e | [p' h1]] eqn:Ef.
  - intros [= <- <- <-]. split; [done |].
    apply Forall2_diag. intros x. right. by split.
  - destruct (traverseAll f cs h1) as [[cs' h2] r2] eqn:Ea.
    intros [= <- <- <-].
    pose proof (f_grows _ _ _ _ Ef) as Hg.
    apply (traverseAll_reached _ IH) in Ea as [? Hr].
    split; [by etrans |]. simpl. constructor.
    + left. eapply Q_mono; [by apply f_Q | done | done].
    + eapply Forall2_impl; [exact Hr |]. intros x y Hxy.
      by eapply reached_mono.
Qed.

(** A walk that returned has related every node. *)
Lemma traverse_returned o h o' h' :
  traverse f h o = (o', h', None) → Forall2 (Q h h') (nodes o) (nodes o').
Proof.
  intros H. apply traverse_reached in H as [_ H].
  eapply Forall2_impl; [exact H |]. by intros x y [? | [[? [=]] _]].
Qed.

(** So has any walk, when [Q] holds of an untouched node. *)
Lemma traverse_any o h o' h' r :
  (∀ h p, Q h h p p) →
  traverse f h o = (o', h', r) → Forall2 (Q h h') (nodes o) (nodes o').
Proof.
  intros Hrefl H. apply traverse_reached in H as [Hg H].
  eapply Forall2_impl; [exact H |]. intros x y [? | [_ ->]]; [done |].
  eapply Q_mono; [apply (Hrefl h) | done | done].
Qed.
End Traverse.

Lemma traverse_grows f :
  (∀ h p p' h', f h p = inr (p', h') → h ⊆ h') →
  ∀ o h o' h' r, traverse f h o = (o', h', r) → h ⊆ h'.
Proof.
  intros Hg o h o' h' r H.
  by apply (traverse_reached f Hg (λ _ _ _ _, True)) in H as [? _].
Qed.

Lemma traverseAll_grows f :
  (∀ h p p' h', f h p = inr (p', h') → h ⊆ h') →
  ∀ cs h cs' h' r, traverseAll f cs h = (cs', h', r) → h ⊆ h'.
Proof.
  intros Hg. induction cs as [| c rest IH]; intros h cs' h' r; simpl.
  - by intros [= <- <- <-].
  - destruct (traverse f h c) as [[c' ha] [e |]] eqn:Ec.
    + intros [= <- <- <-]. by eapply traverse_grows.
    + destruct (traverseAll f rest ha) as [[rest' hb] r'] eqn:Er.
      intros [= <- <- <-]. etrans; [by eapply traverse_grows | by eapply IH].
Qed.

Lemma traverse_frame f :
  (∀ h p p' h', f h p = inr (p', h') → mask p' = mask p) →
  ∀ o h o' h' r, traverse f h o = (o', h', r) → frame o' = frame o.
Proof.
  intros Hmask. induction o as [p cs IH] using Object3D_ind'.
  intros h o' h' r. rewrite traverse_unfold.
  destruct (f h p) as [e | [p' h1]] eqn:Ef; [by intros [= <- <- <-] |].
  destruct (traverseAll f cs h1) as [[cs' h2] r2] eqn:Ea.
  intros [= <- <- <-]. simpl. rewrite (Hmask _ _ _ _ Ef). f_equal.
  clear Ef. revert h1 cs' h2 r2 Ea.
  induction IH as [| c rest Hc _ IHrest]; intros h1 cs' h2 r2; simpl.
  - by intros [= <- <- <-].
  - destruct (traverse f h1 c) as [[c' ha] [e |]] eqn:Ec.
    + intros [= <- <- <-]. simpl. by rewrite (Hc _ _ _ _ Ec).
    + destruct (traverseAll f rest ha) as [[rest' hb] r'] eqn:Er.
      intros [= <- <- <-]. simpl.
      by rewrite (Hc _ _ _ _ Ec), (IHrest _ _ _ _ Er).
Qed.

(** When the walk returns and when it throws: [ok] tells the nodes on
    which the callback succeeds; on the others it throws [E]. *)
Section Outcome.
Variable f : Heap → Props → Abort + (Props * Heap).
Variable h0 : Heap.
Variable I : Props → Prop.
Variable ok : Props → bool.
Variable E : Abort.
Hypothesis f_grows : ∀ h p p' h', f h p = inr (p', h') → h ⊆ h'.
Hypothesis f_ok : ∀ h p, h0 ⊆ h → I p → ok p = true → ∃ p' h', f h p = inr (p', h').
Hypothesis f_ko : ∀ h p, h0 ⊆ h → I p → ok p = false → f h p = inl E.

Lemma outcome_app l1 l2 :
  outcome ok E (l1 ++ l2) = match outcome ok E l1 with None => outcome ok E l2 | Some e => Some e end.
Proof. unfold outcome. rewrite forallb_app. by destruct (forallb ok l1). Qed.

Lemma traverseAll_outcome cs :
  Forall (λ o, ∀ h, h0 ⊆ h → Forall I (nodes o) →
               ∃ o' h', traverse f h o = (o', h', outcome ok E (nodes o))) cs →
  ∀ h, h0 ⊆ h → Forall I (flat_map nodes cs) →
    ∃ cs' h', traverseAll f cs h = (cs', h', outcome ok E (flat_map nodes cs)).
Proof.
  induction 1 as [| c rest Hc _ IH]; intros h Hh HI; simpl.
  - by exists [], h.
  - simpl in HI. apply Forall_app in HI as [HIc HIr].
    destruct (Hc h Hh HIc) as (c' & ha & Ec). rewrite Ec, outcome_app.
    destruct (outcome ok E (nodes c)) as [e |] eqn:Eo; [by eexists _, _ |].
    assert (h0 ⊆ ha) as Hha.
    { etrans; [exact Hh |]. eapply traverse_grows; [exact f_grows | exact Ec]. }
    destruct (IH ha Hha HIr) as (rest' & hb & Er). rewrite Er. by eexists _, _.
Qed.

Lemma traverse_outcome o :
  ∀ h, h0 ⊆ h → Forall I (nodes o) →
    ∃ o' h', traverse f h o = (o', h', outcome ok E (nodes o)).
Proof.
  induction o as [p cs IH] using Object3D_ind'. intros h Hh HI.
  simpl in HI. apply Forall_cons in HI as [HIp HIcs].
  rewrite traverse_unfold. change (nodes (Obj p cs)) with ([p] ++ flat_map nodes cs)%list.
  rewrite outcome_app. unfold outcome at 1. simpl. rewrite andb_true_r.
  destruct (ok p) eqn:Eok.
  - destruct (f_ok h p Hh HIp Eok) as (p' & h1 & Ef). rewrite Ef.
    assert (h0 ⊆ h1) as Hh1 by (etrans; [exact Hh | by eapply f_grows]).
    destruct (traverseAll_outcome cs IH h1 Hh1 HIcs) as (cs' & h2 & Ea).
    rewrite Ea. by eexists _, _.
  - rewrite (f_ko h p Hh HIp Eok). by eexists _, _.
Qed.
End Outcome.

(** ** Where a call throws *)

Section Thrown.
Variable f : Heap → Props → Abort + (Props * Heap).
Hypothesis f_grows : ∀ h p p' h', f h p = inr (p', h') → h ⊆ h'.
Variable Q : Heap → Heap → Props → Props → Prop.
Hypothesis Q_mono : ∀ h1 h1' h2 h2' p p',
  Q h1 h2 p p' → h1' ⊆ h1 → h2 ⊆ h2' → Q h1' h2' p p'.
Hypothesis f_Q : ∀ h p p' h', f h p = inr (p', h') → Q h h' p p'.

Lemma cutAt_mono h1 h1' h2 h2' e l l' :
  cutAt f Q h1 h2 e l l' → h1' ⊆ h1 → h2 ⊆ h2' → cutAt f Q h1' h2' e l l'.
Proof.
  intros (pre & bad & post & pre' & hb & -> & -> & HQ & Hhb & Hf) Hpre Hpost.
  exists pre, bad, post, pre', hb. repeat split; try done; [| by etrans].
  eapply Forall2_impl; [exact HQ |]. intros x y Hxy. by eapply Q_mono.
Qed.

Lemma cutAt_after h h' e l l' (rest : list Props) :
  cutAt f Q h h' e l l' → cutAt f Q h h' e (l ++ rest) (l' ++ rest).
Proof.
  intros (pre & bad & post & pre' & hb & -> & -> & HQ & Hhb & Hf).
  exists pre, bad, (post ++ rest)%list, pre', hb.
  by rewrite <- !app_assoc.
Qed.

Lemma cutAt_before h h' e l0 l0' l l' :
  Forall2 (Q h h') l0 l0' → cutAt f Q h h' e l l' → cutAt f Q h h' e (l0 ++ l) (l0' ++ l').
Proof.
  intros H0 (pre & bad & post & pre' & hb & -> & -> & HQ & Hhb & Hf).
  exists (l0 ++ pre)%list, bad, post, (l0' ++ pre')%list, hb.
  rewrite <- !app_assoc. repeat split; try done. by apply Forall2_app.
Qed.

Lemma traverseAll_thrown cs :
  Forall (λ o, ∀ h o' h' e, traverse f h o = (o', h', Some e) →
               cutAt f Q h h' e (nodes o) (nodes o')) cs →
  ∀ h cs' h' e, traverseAll f cs h = (cs', h', Some e) →
    cutAt f Q h h' e (flat_map nodes cs) (flat_map nodes cs').
Proof.
  induction 1 as [| c rest Hc _ IH]; intros h cs' h' e; simpl; [done |].
  destruct (traverse f h c) as [[c' ha] [e' |]] eqn:Ec.
  - intros [= <- <- <-]. simpl. by apply cutAt_after, Hc.
  - destruct (traverseAll f rest ha) as [[rest' hb] r'] eqn:Er.
    intros [= <- <- ->]. simpl.
    pose proof (traverse_grows f f_grows _ _ _ _ _ Ec) as Hha.
    pose proof (traverseAll_grows f f_grows _ _ _ _ _ Er) as Hab.
    apply cutAt_before.
    + pose proof (traverse_returned f f_grows Q Q_mono f_Q _ _ _ _ Ec) as Hret.
      eapply Forall2_impl; [exact Hret |]. intros x y Hxy. by eapply Q_mono.
    + eapply cutAt_mono; [by apply IH | done | done].
Qed.

Lemma traverse_thrown o :
  ∀ h o' h' e, traverse f h o = (o', h', Some e) → cutAt f Q h h' e (nodes o) (nodes o').
Proof.
  induction o as [p cs IH] using Object3D_ind'. intros h o' h' e.
  rewrite traverse_unfold. destruct (f h p) as [e' | [p' h1]] eqn:Ef.
  - intros [= <- <- <-]. exists [], p, (flat_map nodes cs), [], h.
    repeat split; done.
  - destruct (traverseAll f cs h1) as [[cs' h2] r] eqn:Ea.
    intros [= <- <- ->]. pose proof (f_grows _ _ _ _ Ef) as Hh1.
    pose proof (traverseAll_grows f f_grows _ _ _ _ _ Ea) as Hh2.
    apply (cutAt_before h h2 e [p] [p']).
    + constructor; [| constructor]. eapply Q_mono; [by apply f_Q | done | done].
    + eapply cutAt_mono; [by eapply traverseAll_thrown | done | done].
Qed.
End Thrown.

(** ** The callback on a well-formed heap *)

Lemma wfProps_weaken h h' p : h ⊆ h' → wfProps h p = true → wfProps h' p = true.
Proof.
  intros Hsub. unfold wfProps. destruct (isMesh p); [simpl | done].
  rewrite !andb_true_iff. intros [Hm Hc]. split.
  - destruct (material p) as [| l | ls]; [done | by eapply allocated_weaken |].
    rewrite forallb_Forall in *. eapply Forall_impl; [exact Hm |].
    intros l. by apply allocated_weaken.
  - destruct (cache p); [by eapply allocated_weaken | done].
Qed.

Lemma visit_ok v ns sel h0 h p :
  h0 ⊆ h → wfProps h0 p = true → cloneable p = true →
  ∃ p' h', visit v ns sel h p = inr (p', h').
Proof.
  intros Hsub Hwf Hcl. apply (wfProps_weaken _ _ _ Hsub) in Hwf.
  unfold visit, wfProps, cloneable, initOriginal in *. fold (cache p) in *.
  destruct (isMesh p); [simpl in * | by eexists _, _].
  apply andb_true_iff in Hwf as [Hm Hc].
  assert (∃ p1 c h1, (match cache p with
            | Some c => inr (p, c, h)
            | None => match material p with
                      | MatOne m => match clone h m with
                                    | inr (c, h') => inr (setOriginal p c, c, h')
                                    | inl e => inl e
                                    end
                      | _ => inl TypeError
                      end
            end : Abort + (Props * loc * Heap)) = inr (p1, c, h1) ∧ allocated h1 c = true)
    as (p1 & c & h1 & -> & Hc1).
  { destruct (cache p) as [c |]; [by eexists _, _, _ |].
    destruct (material p) as [| m | ls]; try done.
    destruct (clone_allocated h m Hm) as (c & h1 & Ecl). rewrite Ecl.
    exists (setOriginal p c), c, h1. split; [done |].
    apply clone_inv in Ecl as (mv & _ & _ & ->).
    unfold allocated. by rewrite lookup_insert_eq. }
  destruct (isEmpty ns && negb (truthy sel)); [by eexists _, _ |].
  destruct (clone_allocated h1 c Hc1) as (l & h2 & ->). by eexists _, _.
Qed.

Lemma visit_ko v ns sel h p :
  cloneable p = false → visit v ns sel h p = inl TypeError.
Proof.
  unfold visit, cloneable, initOriginal. fold (cache p).
  destruct (isMesh p); [simpl | done].
  destruct (cache p); [done |]. by destruct (material p).
Qed.

Lemma visited_mono v ns sel h1 h1' h2 h2' p p' :
  visited v ns sel h1 h2 p p' → h1' ⊆ h1 → h2 ⊆ h2' → visited v ns sel h1' h2' p p'.
Proof.
  unfold visited. destruct (isMesh p); [| done].
  intros (c & l & mv & -> & Hc & Hl & Hr & Hk) Hpre Hpost.
  exists c, l, mv. split; [done |].
  split; [by eapply lookup_weaken |]. split; [by eapply lookup_weaken |]. split.
  - destruct (restoreMode ns sel); [done |]. destruct Hr as [Hr ?].
    split; [by eapply lookup_weaken_None | done].
  - destruct (cache p); [done |]. destruct Hk as (Hn & m & ? & Hm).
    split; [by eapply lookup_weaken_None |]. exists m. split; [done |].
    by eapply lookup_weaken.
Qed.

Lemma wfProps_cache h p c :
  isMesh p = true → wfProps h p = true → cache p = Some c → is_Some (h !! c).
Proof.
  unfold wfProps. intros -> H Hc. simpl in H. apply andb_true_iff in H as [_ H].
  rewrite Hc in H. by apply allocated_Some.
Qed.

Lemma wfProps_material h p m :
  isMesh p = true → wfProps h p = true → material p = MatOne m → is_Some (h !! m).
Proof.
  unfold wfProps. intros -> H Hm. simpl in H. apply andb_true_iff in H as [H _].
  rewrite Hm in H. by apply allocated_Some.
Qed.

Lemma visit_visited v ns sel h p p' h' :
  visit v ns sel h p = inr (p', h') → wfProps h p = true → visited v ns sel h h' p p'.
Proof.
  intros Hv Hwf. unfold visited. destruct (isMesh p) eqn:Em.
  2:{ rewrite visit_other in Hv by done. by injection Hv as <- <-. }
  apply visit_mesh_inv in Hv as (c & h1 & Hc & Hr); [| done].
  assert (∃ mv, h1 !! c = Some mv ∧ h ⊆ h1 ∧
            match cache p with
            | Some c0 => c = c0
            | None => h !! c = None ∧ ∃ m, material p = MatOne m ∧ h1 !! m = Some mv
            end) as (mv & Hmv & Hsub & Hk).
  { destruct Hc as [[Hc ->] | (Hc & m & mv & Hm & Hmv & Hfresh & ->)].
    - destruct (wfProps_cache h p c Em Hwf Hc) as [mv Hmv].
      exists mv. by rewrite Hc.
    - exists mv. rewrite Hc, lookup_insert_eq.
      split; [done |]. split; [by apply insert_subseteq |]. split; [done |].
      exists m. split; [done |]. rewrite lookup_insert_ne; [done |].
      intros ->. congruence. }
  unfold render.
  destruct Hr as [(Hmode & -> & ->) | (Hmode & mv' & l & Hmv' & Hl & -> & ->)];
    rewrite Hmode.
  - exists c, c, mv. repeat split; try done.
  - assert (mv' = mv) as -> by congruence.
    assert (l ≠ c) by (intros ->; congruence).
    exists c, l, mv. split; [done |].
    split; [by rewrite lookup_insert_ne |].
    split; [by rewrite lookup_insert_eq |].
    split; [split; [by eapply lookup_weaken_None | done] |].
    destruct (cache p); [done |]. destruct Hk as (? & m & ? & Hm).
    split; [done |]. exists m. split; [done |].
    rewrite lookup_insert_ne; [done |]. intros ->. congruence.
Qed.

Lemma visited_wf v ns sel h h' p p' :
  visited v ns sel h h' p p' → wfProps h' p' = true ∧ cloneable p' = true.
Proof.
  unfold visited, wfProps, cloneable. destruct (isMesh p) eqn:Em.
  - intros (c & l & mv & -> & Hc & Hl & _). simpl. rewrite Em. simpl.
    unfold allocated. by rewrite Hc, Hl.
  - intros ->. by rewrite Em.
Qed.

Lemma Forall2_left {A B} (R : A → B → Prop) (P : A → Prop) l l' :
  (∀ x y, R x y → P x) → Forall2 R l l' → Forall P l.
Proof. intros HP HR. induction HR; constructor; [by eapply HP | done]. Qed.

Lemma visited_cloneable v ns sel h h' p p' :
  visited v ns sel h h' p p' → cloneable p = true.
Proof.
  unfold visited, cloneable. destruct (isMesh p); [| done]. simpl.
  intros (c & l & mv & _ & _ & _ & _ & Hk).
  destruct (cache p); [done |]. by destruct Hk as (_ & m & -> & _).
Qed.

Lemma Forall2_Forall_mp {A B} (P : A → Prop) (R : A → B → Prop) l l' :
  Forall P l → Forall2 (λ x y, P x → R x y) l l' → Forall2 R l l'.
Proof.
  intros HP HR. induction HR as [| x y l l' Hxy _ IH]; [constructor |].
  apply Forall_cons in HP as [Hx HP]. constructor; [by apply Hxy | by apply IH].
Qed.

(** On a well-formed scene the walk returns when every mesh can be cloned
    and throws a [TypeError] otherwise. *)
Lemma traverse_visit_outcome v ns sel h root :
  wfScene h root = true →
  ∃ root' h', traverse (visit v ns sel) h root =
              (root', h', if cloneableScene root then None else Some TypeError).
Proof.
  unfold wfScene. rewrite forallb_Forall. intros Hwf.
  apply (traverse_outcome (visit v ns sel) h (λ p, wfProps h p = true)
           cloneable TypeError); [| | | done | done].
  - apply visit_subseteq.
  - intros h1 p Hsub Hw Hc. by eapply visit_ok.
  - intros h1 p _ _ Hc. by apply visit_ko.
Qed.

Lemma traverse_visit_visited v ns sel h root root' h' :
  wfScene h root = true →
  traverse (visit v ns sel) h root = (root', h', None) →
  Forall2 (visited v ns sel h h') (nodes root) (nodes root').
Proof.
  unfold wfScene. rewrite forallb_Forall. intros Hwf Ht.
  eapply Forall2_Forall_mp; [exact Hwf |].
  apply (traverse_returned (visit v ns sel) (visit_subseteq v ns sel)
           (λ h1 h2 p p', wfProps h1 p = true → visited v ns sel h1 h2 p p'));
    [| | exact Ht].
  - intros h1 h1' h2 h2' p p' HQ Hpre Hpost Hw.
    eapply visited_mono; [apply HQ; by eapply wfProps_weaken | done | done].
  - intros h1 p p' h2 Hv Hw. by apply visit_visited.
Qed.

(** The routine on a well-formed scene in which every mesh can be cloned
    returns, and has run the callback on every node. *)
Lemma updateHighlight_returns v root s sel h :
  wfScene h root = true → cloneableScene root = true →
  ∃ root' h',
    updateHighlight v (Some root) s sel h = (Some root', h', None) ∧
    h ⊆ h' ∧
    Forall2 (visited v (trim (toLowerCase s)) sel h h') (nodes root) (nodes root').
Proof.
  intros Hwf Hcl. set (ns := trim (toLowerCase s)).
  destruct (traverse_visit_outcome v ns sel h root Hwf) as (root' & h' & Ht).
  rewrite Hcl in Ht. exists root', h'. unfold updateHighlight. fold ns. rewrite Ht.
  split; [done |].
  split; [eapply traverse_grows; [apply visit_subseteq | exact Ht] |].
  by apply traverse_visit_visited.
Qed.

Lemma Forall2_compose {A B C} (R : A → B → Prop) (S : B → C → Prop) (T : A → C → Prop)
    l1 l2 l3 :
  (∀ x y z, R x y → S y z → T x z) →
  Forall2 R l1 l2 → Forall2 S l2 l3 → Forall2 T l1 l3.
Proof.
  intros HT HR. revert l3. induction HR as [| x y l1 l2 Hxy _ IH]; intros l3 HS.
  - inversion HS. constructor.
  - inversion HS as [| ? z ? l3' Hyz HS']; subst. constructor; [by eapply HT | by apply IH].
Qed.

Lemma Forall2_right {A B} (R : A → B → Prop) (P : B → Prop) l l' :
  (∀ x y, R x y → P y) → Forall2 R l l' → Forall P l'.
Proof. intros HP HR. induction HR; constructor; [by eapply HP | done]. Qed.

Lemma visited_kept v ns sel h h' p p' :
  h ⊆ h' → wfProps h p = true → visited v ns sel h h' p p' → kept h h' p p'.
Proof.
  intros Hsub Hwf. unfold visited, kept. destruct (isMesh p) eqn:Em; [| by intros ->].
  intros (c & l & mv & -> & Hc & _ & _ & Hk). split; [done |]. intros _.
  unfold snapshotValue at 2 3. unfold snapshotValue, cache. simpl. rewrite Hc.
  fold (cache p). destruct (cache p) as [c0 |] eqn:Ec.
  - subst c0. destruct (wfProps_cache h p c Em Hwf Ec) as [x Hx].
    rewrite Hx. split; [done |]. f_equal.
    pose proof (lookup_weaken _ _ _ _ Hx Hsub). congruence.
  - destruct Hk as (_ & m & Hm & Hmv). rewrite Hm.
    destruct (wfProps_material h p m Em Hwf Hm) as [x Hx].
    rewrite Hx. split; [done |]. f_equal.
    pose proof (lookup_weaken _ _ _ _ Hx Hsub). congruence.
Qed.

Lemma kept_trans h1 h2 h3 p p' p'' :
  kept h1 h2 p p' → kept h2 h3 p' p'' → kept h1 h3 p p''.
Proof.
  unfold kept. intros [Hm1 H1] [Hm2 H2]. split; [congruence |].
  intros Hm. destruct (H1 Hm) as [Hs1 He1].
  rewrite Hm in Hm1. destruct (H2 Hm1) as [_ He2]. split; [done | congruence].
Qed.

Lemma updateHighlight_keeps v root s sel h :
  wfScene h root = true → cloneableScene root = true →
  ∃ root' h',
    updateHighlight v (Some root) s sel h = (Some root', h', None) ∧
    h ⊆ h' ∧ wfScene h' root' = true ∧ cloneableScene root' = true ∧
    Forall2 (kept h h') (nodes root) (nodes root').
Proof.
  intros Hwf Hcl.
  destruct (updateHighlight_returns v root s sel h Hwf Hcl) as (root' & h' & Hu & Hsub & Hv).
  exists root', h'. split; [done |]. split; [done |].
  unfold wfScene, cloneableScene in *. rewrite !forallb_Forall in *.
  split; [| split].
  - eapply Forall2_right; [| exact Hv]. intros x y Hxy. by eapply visited_wf.
  - eapply Forall2_right; [| exact Hv]. intros x y Hxy. by eapply visited_wf.
  - eapply Forall2_Forall_mp; [exact Hwf |].
    eapply Forall2_impl; [exact Hv |]. intros x y Hxy Hw. by eapply visited_kept.
Qed.

Lemma Forall_Forall2_same {A} (R : A → A → Prop) (l : list A) :
  Forall (λ x, R x x) l → Forall2 R l l.
Proof. induction 1; by constructor. Qed.

Lemma snapshotValue_is_Some h p :
  isMesh p = true → wfProps h p = true → cloneable p = true →
  is_Some (snapshotValue h p).
Proof.
  intros Em Hwf Hcl. unfold snapshotValue.
  destruct (cache p) as [c |] eqn:Ec; [by eapply wfProps_cache |].
  unfold cloneable in Hcl. rewrite Em, Ec in Hcl. simpl in Hcl.
  destruct (material p) as [| m | ls] eqn:Emat; try done.
  by eapply wfProps_material.
Qed.

Lemma updateHighlightSeq_keeps v calls :
  ∀ root h, wfScene h root = true → cloneableScene root = true →
  ∃ root' h',
    updateHighlightSeq v calls (Some root) h = (Some root', h', None) ∧
    h ⊆ h' ∧ wfScene h' root' = true ∧ cloneableScene root' = true ∧
    Forall2 (kept h h') (nodes root) (nodes root').
Proof.
  induction calls as [| [s sel] rest IH]; intros root h Hwf Hcl.
  - exists root, h. repeat split; try done.
    unfold wfScene in Hwf. rewrite forallb_Forall in Hwf.
    unfold cloneableScene in Hcl. rewrite forallb_Forall in Hcl.
    apply Forall_Forall2_same.
    assert (Forall (λ p, wfProps h p = true ∧ cloneable p = true) (nodes root)) as Hboth
      by (apply Forall_and; by split).
    eapply Forall_impl; [exact Hboth |].
    intros p [Hw Hc]. split; [done |]. intros Em. split; [| done].
    by apply snapshotValue_is_Some.
  - destruct (updateHighlight_keeps v root s sel h Hwf Hcl)
      as (root1 & h1 & Hu & Hsub1 & Hwf1 & Hcl1 & Hk1).
    destruct (IH root1 h1 Hwf1 Hcl1) as (root' & h' & Hs & Hsub & Hwf' & Hcl' & Hk).
    exists root', h'. cbn [updateHighlightSeq]. rewrite Hu.
    split; [done |]. split; [by etrans |]. split; [done |]. split; [done |].
    eapply Forall2_compose; [| exact Hk1 | exact Hk].
    intros x y z. apply kept_trans.
Qed.

Lemma updateHighlightSeq_app v calls1 calls2 scene h :
  updateHighlightSeq v (calls1 ++ calls2) scene h =
  match updateHighlightSeq v calls1 scene h with
  | (scene', h', None) => updateHighlightSeq v calls2 scene' h'
  | r => r
  end.
Proof.
  revert scene h. induction calls1 as [| [s sel] rest IH]; intros scene h; [done |].
  cbn [updateHighlightSeq app].
  destruct (updateHighlight v scene s sel h) as [[scene1 h1] [e |]]; [done |].
  apply IH.
Qed.

(** ** The three presets and the restore *)

(** What a call of the callback has done to a mesh, read on the heap
    before the call. *)
Lemma visited_mesh v ns sel h h' p p' :
  h ⊆ h' → wfProps h p = true → isMesh p = true → visited v ns sel h h' p p' →
  ∃ c l mv,
    p' = setMaterial (setOriginal p c) l ∧
    h' !! c = Some mv ∧ snapshotValue h p = Some mv ∧
    h' !! l = Some (render v ns sel p mv) ∧
    (if restoreMode ns sel then l = c else h !! l = None ∧ l ≠ c) ∧
    match cache p with
    | Some c0 => c = c0
    | None => h !! c = None ∧ ∃ m, material p = MatOne m ∧ h !! m = Some mv
    end.
Proof.
  intros Hsub Hwf Em Hvis. unfold visited in Hvis. rewrite Em in Hvis.
  destruct Hvis as (c & l & mv & -> & Hc & Hl & Hr & Hk).
  exists c, l, mv. split; [done |]. split; [done |].
  unfold snapshotValue. destruct (cache p) as [c0 |] eqn:Ec.
  - subst c0. destruct (wfProps_cache h p c Em Hwf Ec) as [x Hx].
    pose proof (lookup_weaken _ _ _ _ Hx Hsub) as Hx'.
    assert (x = mv) as -> by congruence. done.
  - destruct Hk as (Hfresh & m & Hm & Hmv). rewrite Hm.
    destruct (wfProps_material h p m Em Hwf Hm) as [x Hx].
    pose proof (lookup_weaken _ _ _ _ Hx Hsub) as Hx'.
    assert (x = mv) as -> by congruence.
    split; [done |]. split; [done |]. split; [done |]. split; [done |]. by exists m.
Qed.

(** A returned call leaves every mesh with its cached original, whose
    value is the one the mesh had before the call, and with the rendering
    of that value as active material: the cached original itself in the
    restore branch, a new object otherwise. *)
Lemma updateHighlight_renders v root s sel h :
  wfScene h root = true → cloneableScene root = true →
  ∃ root' h',
    updateHighlight v (Some root) s sel h = (Some root', h', None) ∧
    Forall2 (λ p p', isMesh p = true →
               ∃ c l mv, cache p' = Some c ∧ h' !! c = Some mv ∧
                         snapshotValue h p = Some mv ∧
                         material p' = MatOne l ∧
                         (if restoreMode (trim (toLowerCase s)) sel then l = c
                          else h !! l = None ∧ l ≠ c) ∧
                         h' !! l = Some (render v (trim (toLowerCase s)) sel p mv))
            (nodes root) (nodes root').
Proof.
  intros Hwf Hcl.
  destruct (updateHighlight_returns v root s sel h Hwf Hcl) as (root' & h' & Hu & Hsub & Hv).
  exists root', h'. split; [done |].
  unfold wfScene in Hwf. rewrite forallb_Forall in Hwf.
  eapply Forall2_Forall_mp; [exact Hwf |].
  eapply Forall2_impl; [exact Hv |]. intros p p' Hvis Hw Em.
  destruct (visited_mesh _ _ _ _ _ _ _ Hsub Hw Em Hvis)
    as (c & l & mv & -> & Hc & Hs & Hl & Hr & _).
  exists c, l, mv. by repeat split.
Qed.

(** Every call ends at the first mesh that can not be cloned, or at the
    end of the tree when there is none: the nodes before that point have
    been through the callback, those from it on are as they were. *)
Lemma updateHighlight_cut v root s sel h :
  wfScene h root = true →
  ∃ root' h' pre pre' post,
    updateHighlight v (Some root) s sel h =
      (Some root', h', if cloneableScene root then None else Some TypeError) ∧
    h ⊆ h' ∧
    nodes root = (pre ++ post)%list ∧ nodes root' = (pre' ++ post)%list ∧
    Forall (λ p, wfProps h p = true ∧ cloneable p = true) pre ∧
    Forall2 (visited v (trim (toLowerCase s)) sel h h') pre pre' ∧
    match post with
    | [] => cloneableScene root = true
    | bad :: _ => cloneableScene root = false ∧ cloneable bad = false
    end.
Proof.
  intros Hwf. destruct (cloneableScene root) eqn:Hcl.
  - destruct (updateHighlight_returns v root s sel h Hwf Hcl)
      as (root' & h' & Hu & Hsub & Hv).
    exists root', h', (nodes root), (nodes root'), []. rewrite !app_nil_r.
    split; [done |]. split; [done |]. split; [done |]. split; [done |].
    split; [| by split].
    unfold wfScene in Hwf. unfold cloneableScene in Hcl.
    rewrite forallb_Forall in Hwf, Hcl. apply Forall_and. by split.
  - set (ns := trim (toLowerCase s)).
    destruct (traverse_visit_outcome v ns sel h root Hwf) as (root' & h' & Ht).
    rewrite Hcl in Ht.
    destruct (traverse_thrown (visit v ns sel) (visit_subseteq v ns sel)
                (λ h1 h2 p p', wfProps h1 p = true → visited v ns sel h1 h2 p p'))
      with (o := root) (h := h) (o' := root') (h' := h') (e := TypeError)
      as (pre & bad & post & pre' & hb & Hn & Hn' & HQ & Hhb & Hf); [| | done |].
    { intros h1 h1' h2 h2' p p' HQ Hpre Hpost Hw.
      eapply visited_mono; [apply HQ; by eapply wfProps_weaken | done | done]. }
    { intros h1 p p' h2 Hv Hw. by apply visit_visited. }
    exists root', h', pre, pre', (bad :: post).
    unfold updateHighlight. fold ns. rewrite Ht.
    split; [done |].
    split; [eapply traverse_grows; [apply visit_subseteq | exact Ht] |].
    split; [done |]. split; [done |].
    unfold wfScene in Hwf. rewrite forallb_Forall, Hn in Hwf.
    apply Forall_app in Hwf as [Hwpre Hwrest]. apply Forall_cons in Hwrest as [Hwbad _].
    pose proof (Forall2_Forall_mp _ _ _ _ Hwpre HQ) as Hvis.
    split; [| split; [done |]].
    + apply Forall_and. split; [done |].
      eapply Forall2_left; [| exact Hvis]. intros p p'. apply visited_cloneable.
    + split; [done |]. destruct (cloneable bad) eqn:Eb; [| done].
      destruct (visit_ok v ns sel h hb bad Hhb Hwbad Eb) as (? & ? & Hok). congruence.
Qed.

(** After any history of calls, a call in the restore branch gives every
    mesh its cached original back. *)
Lemma restore_after_history v calls root s sel h :
  wfScene h root = true → cloneableScene root = true →
  restoreMode (trim (toLowerCase s)) sel = true →
  ∃ root' h',
    updateHighlightSeq v (calls ++ [(s, sel)]) (Some root) h = (Some root', h', None) ∧
    Forall2 (λ p p', isMesh p = true →
               ∃ c mv, material p' = MatOne c ∧ cache p' = Some c ∧
                       h' !! c = Some mv ∧ snapshotValue h p = Some mv)
            (nodes root) (nodes root').
Proof.
  intros Hwf Hcl Hmode.
  destruct (updateHighlightSeq_keeps v calls root h Hwf Hcl)
    as (root1 & h1 & Hs & Hsub1 & Hwf1 & Hcl1 & Hk).
  destruct (updateHighlight_renders v root1 s sel h1 Hwf1 Hcl1)
    as (root' & h' & Hu & Hv).
  exists root', h'. rewrite updateHighlightSeq_app, Hs.
  cbn [updateHighlightSeq]. rewrite Hu. split; [done |].
  eapply Forall2_compose; [| exact Hk | exact Hv].
  intros p p1 p' [Hm1 Hkeep] Hvis Em. destruct (Hkeep Em) as [_ Heq].
  rewrite <- Hm1 in Em. destruct (Hvis Em) as (c & l & mv & Hc & Hmv & Hsn & Hm & Hr & _).
  rewrite Hmode in Hr. subst l. exists c, mv. by rewrite <- Heq.
Qed.

Lemma includes_empty s : includes s "" = true.
Proof. by destruct s. Qed.

Lemma isSelected_identifier v p id :
  isEmpty id = false → identifier v p = id → isSelected v p (Some id) = true.
Proof.
  intros Hid <-. unfold isSelected. rewrite Hid. simpl.
  destruct v; simpl; [unfold partName |]; apply String.eqb_refl.
Qed.

Lemma isSelected_restoreMode v ns sel p :
  isSelected v p sel = true → restoreMode ns sel = false.
Proof.
  unfold isSelected, restoreMode. destruct sel as [x |]; [| done]. simpl.
  destruct (isEmpty x); [done |]. intros _. apply andb_false_r.
Qed.

(** The field writes of the three branches, field by field. *)
Lemma preset_fields v ns sel p mv :
  preset v ns sel p mv =
    if isSelected v p sel then
      {| color := "#f97316"; emissive := "#f97316";
         emissiveIntensity := match v with ByName => 6 # 10 | ByUuid => 8 # 10 end;
         transparent := false; opacity := 1;
         roughness := roughness mv; metalness := metalness mv |}
    else if isSearchMatch ns p then
      {| color := "#3b82f6"; emissive := "#3b82f6"; emissiveIntensity := 5 # 10;
         transparent := false; opacity := 1;
         roughness := roughness mv; metalness := metalness mv |}
    else
      {| color := "#cccccc"; emissive := emissive mv;
         emissiveIntensity := emissiveIntensity mv;
         transparent := true; opacity := 1 # 10;
         roughness := 1; metalness := metalness mv |}.
Proof.
  unfold preset. destruct (isSelected v p sel); [by destruct v |].
  by destruct (isSearchMatch ns p).
Qed.

(** C2, as amended.  On a scene where every mesh has a cached original or
    holds a single material, the call returns, and a mesh whose identifier
    is the non-empty selection identifier ends with the selected preset
    (colour and emissive colour #f97316, emissive intensity 0.6 in the
    procedural revision and 0.8 in the model-loading one, opaque) on a new
    clone of its cached original, whatever the search text is and whether
    or not the mesh's name matches it. *)
Theorem selection_precedes_search v root s id h :
  wfScene h root = true → cloneableScene root = true → isEmpty id = false →
  ∃ root' h',
    updateHighlight v (Some root) s (Some id) h = (Some root', h', None) ∧
    Forall2 (λ p p', isMesh p = true → identifier v p = id →
               ∃ c l mv, cache p' = Some c ∧ h' !! c = Some mv ∧
                         snapshotValue h p = Some mv ∧
                         material p' = MatOne l ∧ l ≠ c ∧ h !! l = None ∧
                         h' !! l = Some
                           {| color := "#f97316"; emissive := "#f97316";
                              emissiveIntensity :=
                                match v with ByName => 6 # 10 | ByUuid => 8 # 10 end;
                              transparent := false; opacity := 1;
                              roughness := roughness mv; metalness := metalness mv |})
            (nodes root) (nodes root').
Proof.
  intros Hwf Hcl Hid.
  destruct (updateHighlight_renders v root s (Some id) h Hwf Hcl)
    as (root' & h' & Hu & Hv).
  exists root', h'. split; [done |].
  eapply Forall2_impl; [exact Hv |]. intros p p' Hp Em Hident.
  destruct (Hp Em) as (c & l & mv & Hc & Hmv & Hsn & Hm & Hr & Hl).
  pose proof (isSelected_identifier v p id Hid Hident) as Hsel.
  unfold render in Hl.
  rewrite (isSelected_restoreMode v _ _ p Hsel) in Hl, Hr.
  rewrite preset_fields, Hsel in Hl. destruct Hr as [Hfresh Hne].
  exists c, l, mv. by repeat split.
Qed.

(** A mesh that is not the selected part and whose lower-cased name does
    not contain the normalized search text ends with the ghost preset on
    a new clone of its cached original. *)
Lemma unmatched_ghosted v root s sel h :
  wfScene h root = true → cloneableScene root = true →
  ∃ root' h',
    updateHighlight v (Some root) s sel h = (Some root', h', None) ∧
    Forall2 (λ p p', isMesh p = true → isSelected v p sel = false →
               includes (toLowerCase (name p)) (trim (toLowerCase s)) = false →
               ∃ c l mv, cache p' = Some c ∧ h' !! c = Some mv ∧
                         snapshotValue h p = Some mv ∧
                         material p' = MatOne l ∧ l ≠ c ∧ h !! l = None ∧
                         h' !! l = Some
                           {| color := "#cccccc"; emissive := emissive mv;
                              emissiveIntensity := emissiveIntensity mv;
                              transparent := true; opacity := 1 # 10;
                              roughness := 1; metalness := metalness mv |})
            (nodes root) (nodes root').
Proof.
  intros Hwf Hcl.
  destruct (updateHighlight_renders v root s sel h Hwf Hcl) as (root' & h' & Hu & Hv).
  exists root', h'. split; [done |].
  eapply Forall2_impl; [exact Hv |]. intros p p' Hp Em Hsel Hinc.
  destruct (Hp Em) as (c & l & mv & Hc & Hmv & Hsn & Hm & Hr & Hl).
  set (ns := trim (toLowerCase s)) in *.
  assert (isEmpty ns = false) as Hns.
  { destruct ns; [| done]. by rewrite includes_empty in Hinc. }
  assert (restoreMode ns sel = false) as Hmode by (unfold restoreMode; by rewrite Hns).
  unfold render in Hl. rewrite Hmode in Hl, Hr.
  rewrite preset_fields, Hsel in Hl.
  unfold isSearchMatch, partName in Hl. rewrite Hinc, andb_false_r in Hl.
  destruct Hr as [Hfresh Hne]. exists c, l, mv. by repeat split.
Qed.

(** ** The other branches of the callback *)

(** X1.  In a call that returns, a mesh that is not the selected part and
    whose lower-cased name contains the non-empty normalized search text
    ends with the search preset (colour and emissive colour #3b82f6,
    emissive intensity 0.5, opaque) on a new clone of its cached
    original. *)
Theorem matched_mesh_gets_search_preset v root s sel h :
  wfScene h root = true → cloneableScene root = true →
  ∃ root' h',
    updateHighlight v (Some root) s sel h = (Some root', h', None) ∧
    Forall2 (λ p p', isMesh p = true → isSelected v p sel = false →
               isEmpty (trim (toLowerCase s)) = false →
               includes (toLowerCase (name p)) (trim (toLowerCase s)) = true →
               ∃ c l mv, cache p' = Some c ∧ h' !! c = Some mv ∧
                         snapshotValue h p = Some mv ∧
                         material p' = MatOne l ∧ l ≠ c ∧ h !! l = None ∧
                         h' !! l = Some
                           {| color := "#3b82f6"; emissive := "#3b82f6";
                              emissiveIntensity := 5 # 10;
                              transparent := false; opacity := 1;
                              roughness := roughness mv; metalness := metalness mv |})
            (nodes root) (nodes root').
Proof.
  intros Hwf Hcl.
  destruct (updateHighlight_renders v root s sel h Hwf Hcl) as (root' & h' & Hu & Hv).
  exists root', h'. split; [done |].
  eapply Forall2_impl; [exact Hv |]. intros p p' Hp Em Hsel Hns Hinc.
  destruct (Hp Em) as (c & l & mv & Hc & Hmv & Hsn & Hm & Hr & Hl).
  assert (restoreMode (trim (toLowerCase s)) sel = false) as Hmode
    by (unfold restoreMode; by rewrite Hns).
  unfold render in Hl. rewrite Hmode in Hl, Hr.
  rewrite preset_fields, Hsel in Hl.
  unfold isSearchMatch, partName in Hl. rewrite Hns, Hinc in Hl. simpl in Hl.
  destruct Hr as [Hfresh Hne]. exists c, l, mv. by repeat split.
Qed.

(** X2.  In a call that returns, with a selection and a blank search text,
    every mesh that is not the selected part ends with the ghost preset
    (colour #cccccc, transparent, opacity 0.1, roughness 1) on a new clone
    of its cached original: none gets the search preset, though the empty
    text is a substring of every name. *)
Theorem selection_alone_ghosts_the_rest v root s sel h :
  wfScene h root = true → cloneableScene root = true →
  isEmpty (trim (toLowerCase s)) = true → truthy sel = true →
  ∃ root' h',
    updateHighlight v (Some root) s sel h = (Some root', h', None) ∧
    Forall2 (λ p p', isMesh p = true → isSelected v p sel = false →
               ∃ c l mv, cache p' = Some c ∧ h' !! c = Some mv ∧
                         snapshotValue h p = Some mv ∧
                         material p' = MatOne l ∧ l ≠ c ∧ h !! l = None ∧
                         h' !! l = Some
                           {| color := "#cccccc"; emissive := emissive mv;
                              emissiveIntensity := emissiveIntensity mv;
                              transparent := true; opacity := 1 # 10;
                              roughness := 1; metalness := metalness mv |})
            (nodes root) (nodes root').
Proof.
  intros Hwf Hcl Hns Hsel.
  destruct (updateHighlight_renders v root s sel h Hwf Hcl) as (root' & h' & Hu & Hv).
  exists root', h'. split; [done |].
  eapply Forall2_impl; [exact Hv |]. intros p p' Hp Em Hnot.
  destruct (Hp Em) as (c & l & mv & Hc & Hmv & Hsn & Hm & Hr & Hl).
  assert (restoreMode (trim (toLowerCase s)) sel = false) as Hmode
    by (unfold restoreMode; rewrite Hsel; apply andb_false_r).
  unfold render in Hl. rewrite Hmode in Hl, Hr.
  rewrite preset_fields, Hnot in Hl.
  unfold isSearchMatch in Hl. rewrite Hns in Hl. simpl in Hl.
  destruct Hr as [Hfresh Hne]. exists c, l, mv. by repeat split.
Qed.

(** X3.  In the procedural revision the selection is compared on
    lower-cased names: in a call that returns, a mesh whose lower-cased
    name is the lower-cased selected name ends with the selected preset
    (colour and emissive colour #f97316, emissive intensity 0.6, opaque)
    on a new clone of its cached original, whatever the letter case of
    either. *)
Theorem name_selection_ignores_case root s id h :
  wfScene h root = true → cloneableScene root = true → isEmpty id = false →
  ∃ root' h',
    updateHighlight ByName (Some root) s (Some id) h = (Some root', h', None) ∧
    Forall2 (λ p p', isMesh p = true → toLowerCase (name p) = toLowerCase id →
               ∃ c l mv, cache p' = Some c ∧ h' !! c = Some mv ∧
                         snapshotValue h p = Some mv ∧
                         material p' = MatOne l ∧ l ≠ c ∧ h !! l = None ∧
                         h' !! l = Some
                           {| color := "#f97316"; emissive := "#f97316";
                              emissiveIntensity := 6 # 10;
                              transparent := false; opacity := 1;
                              roughness := roughness mv; metalness := metalness mv |})
            (nodes root) (nodes root').
Proof.
  intros Hwf Hcl Hid.
  destruct (updateHighlight_renders ByName root s (Some id) h Hwf Hcl)
    as (root' & h' & Hu & Hv).
  exists root', h'. split; [done |].
  eapply Forall2_impl; [exact Hv |]. intros p p' Hp Em Hname.
  destruct (Hp Em) as (c & l & mv & Hc & Hmv & Hsn & Hm & Hr & Hl).
  assert (isSelected ByName p (Some id) = true) as Hsel.
  { unfold isSelected, partName. rewrite Hid, Hname. simpl. apply String.eqb_refl. }
  unfold render in Hl.
  rewrite (isSelected_restoreMode ByName _ _ p Hsel) in Hl, Hr.
  rewrite preset_fields, Hsel in Hl. destruct Hr as [Hfresh Hne].
  exists c, l, mv. by repeat split.
Qed.

(** ** Calling twice *)

Lemma materialValues_weaken h h' p :
  h ⊆ h' → Forall is_Some (materialValues h p) → materialValues h' p = materialValues h p.
Proof.
  intros Hsub. unfold materialValues. destruct (material p) as [| l | ls]; [done | |].
  - intros Hs. apply Forall_singleton in Hs as [x Hx].
    by rewrite Hx, (lookup_weaken _ _ _ _ Hx Hsub).
  - induction ls as [| l ls IH]; [done |]. simpl. intros Hs.
    apply Forall_cons in Hs as [[x Hx] Hs].
    by rewrite IH, Hx, (lookup_weaken _ _ _ _ Hx Hsub).
Qed.

Lemma agree_mono h1 h1' h2 h2' p1 p2 :
  agree h1 h2 p1 p2 → h1 ⊆ h1' → h2 ⊆ h2' → agree h1' h2' p1 p2.
Proof.
  unfold agree. intros H Hs1 Hs2 Em. destruct (H Em) as [Hsome Heq].
  rewrite (materialValues_weaken h1 h1' p1 Hs1 Hsome).
  split; [done |].
  rewrite (materialValues_weaken h2 h2' p2 Hs2); [done |]. by rewrite Heq.
Qed.

Lemma agree_wf h0 h1 h2 p :
  wfProps h0 p = true → h0 ⊆ h1 → h1 ⊆ h2 → agree h1 h2 p p.
Proof.
  intros Hwf Hs1 Hs2 Em.
  assert (Forall is_Some (materialValues h1 p)) as Hsome.
  { apply (wfProps_weaken _ _ _ Hs1) in Hwf. unfold wfProps in Hwf.
    rewrite Em in Hwf. simpl in Hwf. apply andb_true_iff in Hwf as [Hm _].
    unfold materialValues. destruct (material p) as [| l | ls]; [constructor | |].
    - apply Forall_singleton. by apply allocated_Some.
    - rewrite forallb_Forall in Hm. apply Forall_map.
      eapply Forall_impl; [exact Hm |]. intros l. apply allocated_Some. }
  split; [done |]. by apply materialValues_weaken.
Qed.

Lemma visit_throws v ns sel h p e :
  visit v ns sel h p = inl e → wfProps h p = true →
  ∀ h', visit v ns sel h' p = inl e.
Proof.
  intros Hv Hwf h'. destruct (cloneable p) eqn:Ecl.
  - destruct (visit_ok v ns sel h h p) as (p' & h1 & Hok); try done. congruence.
  - rewrite visit_ko in Hv by done. rewrite visit_ko by done. done.
Qed.

Lemma visit_again v ns sel h p p1 h1 :
  visit v ns sel h p = inr (p1, h1) → wfProps h p = true →
  ∀ hs, h1 ⊆ hs →
    ∃ p2 h2, visit v ns sel hs p1 = inr (p2, h2) ∧ hs ⊆ h2 ∧ agree h1 h2 p1 p2.
Proof.
  intros Hv Hwf hs Hsub. pose proof (visit_visited _ _ _ _ _ _ _ Hv Hwf) as Hvis.
  destruct (visited_wf _ _ _ _ _ _ _ Hvis) as [Hwf1 Hcl1].
  destruct (visit_ok v ns sel h1 hs p1 Hsub Hwf1 Hcl1) as (p2 & h2 & Hv2).
  exists p2, h2. split; [done |].
  pose proof (visit_subseteq _ _ _ _ _ _ _ Hv2) as Hsub2. split; [done |].
  pose proof (visit_visited _ _ _ _ _ _ _ Hv2 (wfProps_weaken _ _ _ Hsub Hwf1)) as Hvis2.
  intros Em1. unfold visited in Hvis, Hvis2. rewrite Em1 in Hvis2.
  destruct (isMesh p) eqn:Em; [| by (subst p1; congruence)].
  destruct Hvis as (c & l & mv & -> & Hc & Hl & _).
  destruct Hvis2 as (c' & l' & mv' & -> & Hc' & Hl' & _ & Hk).
  unfold cache in Hk. simpl in Hk. subst c'.
  assert (mv' = mv) as ->.
  { pose proof (lookup_weaken _ _ _ _ Hc (transitivity Hsub Hsub2)). congruence. }
  unfold materialValues. simpl. rewrite Hl, Hl'.
  split; [apply Forall_singleton; by eexists | done].
Qed.

Section Twice.
Variable v : Variant.
Variable ns : string.
Variable sel : option string.
Variable h0 : Heap.

Lemma agree_untouched h1 h2 (l : list Props) :
  Forall (λ p, wfProps h0 p = true) l → h0 ⊆ h1 → h1 ⊆ h2 →
  Forall2 (agree h1 h2) l l.
Proof.
  intros Hwf Hs1 Hs2. apply Forall_Forall2_same.
  eapply Forall_impl; [exact Hwf |]. intros p Hp. exact (agree_wf h0 h1 h2 p Hp Hs1 Hs2).
Qed.

Lemma traverseAll_twice cs :
  Forall (walksTwice v ns sel h0) cs →
  ∀ h cs1 h1 r, h0 ⊆ h → Forall (λ p, wfProps h0 p = true) (flat_map nodes cs) →
    traverseAll (visit v ns sel) cs h = (cs1, h1, r) →
    ∀ hs, h1 ⊆ hs →
      ∃ cs2 h2, traverseAll (visit v ns sel) cs1 hs = (cs2, h2, r) ∧ hs ⊆ h2 ∧
                Forall2 (agree h1 h2) (flat_map nodes cs1) (flat_map nodes cs2).
Proof.
  induction 1 as [| c rest Hc _ IH]; intros h cs1 h1 r Hh Hwf; simpl.
  - intros [= <- <- <-] hs Hhs. exists [], hs. by repeat split.
  - simpl in Hwf. apply Forall_app in Hwf as [Hwfc Hwfr].
    destruct (traverse (visit v ns sel) h c) as [[c1 ha] [e |]] eqn:Ec.
    + intros [= <- <- <-] hs Hhs.
      destruct (Hc h c1 ha (Some e) Hh Hwfc Ec hs Hhs) as (c2 & h2 & Ec2 & Hs2 & Ha).
      exists (c2 :: rest), h2. simpl. rewrite Ec2. split; [done |]. split; [done |].
      apply Forall2_app; [done |].
      apply agree_untouched; [done | | by etrans].
      etrans; [exact Hh |]. eapply traverse_grows; [apply visit_subseteq | exact Ec].
    + destruct (traverseAll (visit v ns sel) rest ha) as [[rest1 hb] r'] eqn:Er.
      intros [= <- <- <-] hs Hhs.
      assert (h ⊆ ha) as Hha
        by (eapply traverse_grows; [apply visit_subseteq | exact Ec]).
      assert (ha ⊆ hb) as Hab
        by (eapply traverseAll_grows; [apply visit_subseteq | exact Er]).
      destruct (Hc h c1 ha None Hh Hwfc Ec hs (transitivity Hab Hhs))
        as (c2 & h2a & Ec2 & Hs2a & Ha).
      destruct (IH ha rest1 hb r' (transitivity Hh Hha) Hwfr Er h2a (transitivity Hhs Hs2a))
        as (rest2 & h2b & Er2 & Hs2b & Hb).
      exists (c2 :: rest2), h2b. simpl. rewrite Ec2, Er2.
      split; [done |]. split; [by etrans |].
      apply Forall2_app; [| done].
      eapply Forall2_impl; [exact Ha |]. intros x y Hxy. by eapply agree_mono.
Qed.

Lemma traverse_twice o : walksTwice v ns sel h0 o.
Proof.
  induction o as [p cs IH] using Object3D_ind'.
  intros h o1 h1 r Hh Hwf. rewrite traverse_unfold.
  simpl in Hwf. apply Forall_cons in Hwf as [Hwfp Hwfcs].
  pose proof (wfProps_weaken _ _ _ Hh Hwfp) as Hwfh.
  destruct (visit v ns sel h p) as [e | [p1 ha]] eqn:Ef.
  - intros [= <- <- <-] hs Hhs. exists (Obj p cs), hs.
    rewrite traverse_unfold.
    rewrite (visit_throws v ns sel h p e Ef Hwfh hs).
    split; [done |]. split; [done |].
    apply (agree_untouched h hs (nodes (Obj p cs))); [| done | done].
    simpl. by constructor.
  - destruct (traverseAll (visit v ns sel) cs ha) as [[cs1 hb] r'] eqn:Ea.
    intros [= <- <- <-] hs Hhs.
    assert (h ⊆ ha) as Hha by (by eapply visit_subseteq).
    assert (ha ⊆ hb) as Hab
      by (eapply traverseAll_grows; [apply visit_subseteq | exact Ea]).
    destruct (visit_again v ns sel h p p1 ha Ef Hwfh hs (transitivity Hab Hhs))
      as (p2 & h2a & Ef2 & Hs2a & Hag).
    destruct (traverseAll_twice cs IH ha cs1 hb r' (transitivity Hh Hha) Hwfcs Ea
                h2a (transitivity Hhs Hs2a))
      as (cs2 & h2b & Ea2 & Hs2b & Hb).
    exists (Obj p2 cs2), h2b. rewrite traverse_unfold.
    rewrite Ef2, Ea2. split; [done |]. split; [by etrans |].
    simpl. constructor; [| done]. by eapply agree_mono.
Qed.
End Twice.

(** C4.  Called a second time with the same arguments, the routine ends
    as the first call did (it returns, or throws at the same mesh) and
    every mesh's active material has the field values the first call left,
    though a preset sits on a new clone. *)
Theorem highlight_idempotent v root s sel h :
  wfScene h root = true →
  ∃ root1 h1 root2 h2 r,
    updateHighlight v (Some root) s sel h = (Some root1, h1, r) ∧
    updateHighlight v (Some root1) s sel h1 = (Some root2, h2, r) ∧
    Forall2 (λ p1 p2, isMesh p1 = true →
               materialValues h2 p2 = materialValues h1 p1)
            (nodes root1) (nodes root2).
Proof.
  unfold wfScene. rewrite forallb_Forall. intros Hwf. unfold updateHighlight.
  set (ns := trim (toLowerCase s)).
  destruct (traverse (visit v ns sel) h root) as [[root1 h1] r] eqn:E1.
  destruct (traverse_twice v ns sel h root h root1 h1 r) with (hs := h1)
    as (root2 & h2 & E2 & _ & Ha); try done.
  exists root1, h1, root2, h2, r. rewrite E2. split; [done |]. split; [done |].
  eapply Forall2_impl; [exact Ha |]. intros p1 p2 Hag Em. by destruct (Hag Em).
Qed.

(** ** The cache and the frame *)

Lemma captured_mono ns sel h1 h1' h2 h2' p p' :
  captured ns sel h1 h2 p p' → h1' ⊆ h1 → h2 ⊆ h2' → captured ns sel h1' h2' p p'.
Proof.
  intros (HA & HB & HC & HD) Hpre Hpost.
  split; [done |]. split; [| split; [done |]].
  - intros c Hn Hs. destruct (HB c Hn Hs) as (Hfr & m & mv & ? & ? & ?).
    split; [by eapply lookup_weaken_None |].
    exists m, mv. split; [done |]. split; by eapply lookup_weaken.
  - intros Hmode. destruct (HD Hmode) as [-> | (l & ? & ? & ?)]; [by left |].
    right. exists l. repeat split; [done | by eapply lookup_weaken_None | done].
Qed.

Lemma visit_captured v ns sel h p p' h' :
  visit v ns sel h p = inr (p', h') → captured ns sel h h' p p'.
Proof.
  intros Hv. pose proof (visit_subseteq _ _ _ _ _ _ _ Hv) as Hsub.
  destruct (isMesh p) eqn:Em.
  2:{ rewrite visit_other in Hv by done. injection Hv as <- <-.
      unfold captured. rewrite Em.
      split; [done |]. split; [congruence |]. split; [done |]. by left. }
  apply visit_mesh_inv in Hv as (c & h1 & Hc & Hr); [| done].
  assert (∃ l, p' = setMaterial (setOriginal p c) l ∧ h1 ⊆ h' ∧
               (restoreMode ns sel = false → h1 !! l = None ∧ is_Some (h1 !! c)))
    as (l & -> & Hsub1 & Hfresh).
  { destruct Hr as [(Hm & -> & ->) | (Hm & mv & l & ? & ? & -> & ->)].
    - exists c. split; [done |]. split; [done |]. congruence.
    - exists l. split; [done |]. split; [by apply insert_subseteq |]. by eauto. }
  assert (h ⊆ h1) as Hsub0.
  { destruct Hc as [[_ ->] | (_ & m & mv & _ & _ & ? & ->)]; [done |].
    by apply insert_subseteq. }
  unfold captured, cache. simpl. fold (cache p).
  split; [| split; [| split]].
  - intros c0 Hc0. destruct Hc as [[Hc _] | [Hc _]]; congruence.
  - intros c0 Hn [= <-].
    destruct Hc as [[Hc _] | (_ & m & mv & Hm & Hmv & Hfr & ->)]; [congruence |].
    split; [done |]. exists m, mv. split; [done |].
    split; [by eapply lookup_weaken |].
    eapply lookup_weaken; [| exact Hsub1]. by rewrite lookup_insert_eq.
  - intros _. by eexists.
  - intros Hmode. right. exists l. destruct (Hfresh Hmode) as [Hl [x Hx]].
    split; [done |]. split; [by eapply lookup_weaken_None |]. intros [= ->]. congruence.
Qed.

(** C5, as amended.  A call, from any state of the scene, goes through
    the nodes up to the first mesh that has neither a cached original nor
    a single material, where it throws (it returns when there is no such
    mesh).  On every mesh it goes through: a cached original that is
    there stays, the same object with the same values; where there is
    none, one is made, a new object with the values of the mesh's
    material; and outside the restore branch the preset is written to
    another new object, not the cached original, which takes the fields
    the preset does not write from the cached original.  No material that
    existed changes value, and the mesh where the call throws and the
    nodes after it are as they were: that mesh gets no cached original. *)
Theorem original_captured_once v root s sel h :
  wfScene h root = true →
  ∃ root' h' r pre pre' post,
    updateHighlight v (Some root) s sel h = (Some root', h', r) ∧
    wfScene h' root' = true ∧
    (∀ l m, h !! l = Some m → h' !! l = Some m) ∧
    nodes root = (pre ++ post)%list ∧ nodes root' = (pre' ++ post)%list ∧
    Forall (λ p, cloneable p = true) pre ∧
    match post with
    | [] => r = None
    | bad :: _ => r = Some TypeError ∧ cloneable bad = false
    end ∧
    Forall2 (λ p p',
               if isMesh p then
                 ∃ c l mv,
                   cache p' = Some c ∧ h' !! c = Some mv ∧
                   snapshotValue h p = Some mv ∧
                   match cache p with
                   | Some c0 => c = c0
                   | None => h !! c = None ∧
                             ∃ m, material p = MatOne m ∧ h !! m = Some mv
                   end ∧
                   material p' = MatOne l ∧
                   if restoreMode (trim (toLowerCase s)) sel then l = c
                   else
                     l ≠ c ∧ h !! l = None ∧
                     h' !! l = Some
                       (if isSelected v p sel then
                          {| color := "#f97316"; emissive := "#f97316";
                             emissiveIntensity :=
                               match v with ByName => 6 # 10 | ByUuid => 8 # 10 end;
                             transparent := false; opacity := 1;
                             roughness := roughness mv; metalness := metalness mv |}
                        else if negb (isEmpty (trim (toLowerCase s))) &&
                                includes (toLowerCase (name p)) (trim (toLowerCase s)) then
                          {| color := "#3b82f6"; emissive := "#3b82f6";
                             emissiveIntensity := 5 # 10;
                             transparent := false; opacity := 1;
                             roughness := roughness mv; metalness := metalness mv |}
                        else
                          {| color := "#cccccc"; emissive := emissive mv;
                             emissiveIntensity := emissiveIntensity mv;
                             transparent := true; opacity := 1 # 10;
                             roughness := 1; metalness := metalness mv |})
               else p' = p)
            pre pre'.
Proof.
  intros Hwf.
  destruct (updateHighlight_cut v root s sel h Hwf)
    as (root' & h' & pre & pre' & post & Hu & Hsub & Hn & Hn' & Hpre & Hv & Hpost).
  exists root', h', (if cloneableScene root then None else Some TypeError), pre, pre', post.
  split; [done |]. split.
  { unfold wfScene in *. rewrite forallb_Forall in *. rewrite Hn in Hwf. rewrite Hn'.
    apply Forall_app in Hwf as [_ Hwpost]. apply Forall_app. split.
    - eapply Forall2_right; [| exact Hv]. intros x y Hxy. by eapply visited_wf.
    - eapply Forall_impl; [exact Hwpost |]. intros x. by apply wfProps_weaken. }
  split; [intros l m Hl; by eapply lookup_weaken |].
  split; [done |]. split; [done |].
  split; [eapply Forall_impl; [exact Hpre |]; by intros x [_ ?] |].
  split.
  { destruct post as [| bad post]; [by rewrite Hpost |]. destruct Hpost as [-> ?]. done. }
  eapply Forall2_Forall_mp; [exact Hpre |].
  eapply Forall2_impl; [exact Hv |]. intros p p' Hvis [Hw _].
  destruct (isMesh p) eqn:Em; [| by (unfold visited in Hvis; rewrite Em in Hvis)].
  destruct (visited_mesh _ _ _ _ _ _ _ Hsub Hw Em Hvis)
    as (c & l & mv & -> & Hc & Hs & Hl & Hr & Hk).
  exists c, l, mv. split; [done |]. split; [done |]. split; [done |]. split; [done |].
  split; [done |]. unfold render in Hl.
  destruct (restoreMode (trim (toLowerCase s)) sel); [done |].
  destruct Hr as [Hfresh Hne]. split; [done |]. split; [done |].
  rewrite Hl, preset_fields. reflexivity.
Qed.

Lemma mask_fields p p' :
  mask p' = mask p →
  name p' = name p ∧ uuid p' = uuid p ∧ isMesh p' = isMesh p ∧
  position p' = position p ∧ rotation p' = rotation p ∧ geometry p' = geometry p ∧
  extras (userData p') = extras (userData p).
Proof.
  unfold mask. destruct (isMesh p') eqn:E', (isMesh p) eqn:E; intros H.
  - injection H as -> -> -> -> -> ->. done.
  - subst p. simpl in E. done.
  - subst p'. simpl in E'. done.
  - by subst p'.
Qed.

(** C9.  Whatever the arguments and however the call ends, the tree keeps
    its shape and every node every field but a mesh's material reference
    and cache entry; a node that is not a mesh is as it was; a cache entry
    that was there stays; and no material that existed changes value. *)
Theorem highlight_frame v root s sel h :
  ∃ root' h' r,
    updateHighlight v (Some root) s sel h = (Some root', h', r) ∧
    frame root' = frame root ∧
    (∀ l m, h !! l = Some m → h' !! l = Some m) ∧
    Forall2 (λ p p',
               (isMesh p = false → p' = p) ∧
               (∀ c, cache p = Some c → cache p' = Some c) ∧
               name p' = name p ∧ uuid p' = uuid p ∧ isMesh p' = isMesh p ∧
               position p' = position p ∧ rotation p' = rotation p ∧
               geometry p' = geometry p ∧
               extras (userData p') = extras (userData p))
            (nodes root) (nodes root').
Proof.
  unfold updateHighlight. set (ns := trim (toLowerCase s)).
  destruct (traverse (visit v ns sel) h root) as [[root' h'] r] eqn:Et.
  exists root', h', r. split; [done |].
  split; [eapply traverse_frame; [apply visit_mask | exact Et] |].
  split.
  { intros l m Hl. eapply lookup_weaken; [exact Hl |].
    eapply traverse_grows; [apply visit_subseteq | exact Et]. }
  set (Q := λ (_ _ : Heap) (p p' : Props),
              (isMesh p = false → p' = p) ∧
              (∀ c, cache p = Some c → cache p' = Some c) ∧
              name p' = name p ∧ uuid p' = uuid p ∧ isMesh p' = isMesh p ∧
              position p' = position p ∧ rotation p' = rotation p ∧
              geometry p' = geometry p ∧
              extras (userData p') = extras (userData p)).
  assert (∀ h1 h1' h2 h2' p p', Q h1 h2 p p' → h1' ⊆ h1 → h2 ⊆ h2' → Q h1' h2' p p')
    as HQm by done.
  assert (∀ h1 p p' h2, visit v ns sel h1 p = inr (p', h2) → Q h1 h2 p p') as HfQ.
  { intros h1 p p' h2 Hv. split; [| split].
    - intros Em. rewrite visit_other in Hv by done. by injection Hv as <- <-.
    - by destruct (visit_captured _ _ _ _ _ _ _ Hv) as [? _].
    - apply mask_fields. by eapply visit_mask. }
  assert (∀ (h1 : Heap) p, Q h1 h1 p p) as HQr by (intros; by repeat split).
  exact (traverse_any _ (visit_subseteq v ns sel) Q HQm HfQ root h root' h' r HQr Et).
Qed.

(** ** Failure *)

(** C6, as amended.  A null root is a no-op, for every search text and
    selection.  On a root the routine returns when every mesh has a cached
    original or holds a single material; otherwise it throws a
    [TypeError] at the first mesh, in the order of the walk, that has
    neither: the nodes before that mesh have been through the callback
    (each mesh among them has its cached original and holds the cached
    original, in the restore branch, or a new object with the preset),
    and that mesh and all the nodes after it are as they were. *)
Theorem null_root_is_noop_else_type_error v scene s sel h :
  wfRoot h scene = true →
  match scene with
  | None => updateHighlight v scene s sel h = (None, h, None)
  | Some root =>
      ∃ root' h' pre pre' post,
        updateHighlight v scene s sel h =
          (Some root', h', if cloneableScene root then None else Some TypeError) ∧
        nodes root = (pre ++ post)%list ∧ nodes root' = (pre' ++ post)%list ∧
        Forall (λ p, cloneable p = true) pre ∧
        match post with
        | [] => cloneableScene root = true
        | bad :: _ => cloneableScene root = false ∧ cloneable bad = false
        end ∧
        Forall2 (λ p p',
                   if isMesh p then
                     ∃ c l mv, cache p' = Some c ∧ h' !! c = Some mv ∧
                               material p' = MatOne l ∧
                               (if restoreMode (trim (toLowerCase s)) sel then l = c
                                else l ≠ c) ∧
                               h' !! l = Some (render v (trim (toLowerCase s)) sel p mv)
                   else p' = p)
                pre pre'
  end.
Proof.
  intros Hwf. destruct scene as [root |]; [| done]. simpl in Hwf.
  destruct (updateHighlight_cut v root s sel h Hwf)
    as (root' & h' & pre & pre' & post & Hu & Hsub & Hn & Hn' & Hpre & Hv & Hpost).
  exists root', h', pre, pre', post.
  split; [done |]. split; [done |]. split; [done |].
  split; [eapply Forall_impl; [exact Hpre |]; by intros x [_ ?] |].
  split; [done |].
  eapply Forall2_impl; [exact Hv |]. intros p p' Hvis.
  unfold visited in Hvis. destruct (isMesh p); [| done].
  destruct Hvis as (c & l & mv & -> & Hc & Hl & Hr & _). exists c, l, mv.
  split; [done |]. split; [done |]. split; [done |]. split; [| done].
  destruct (restoreMode (trim (toLowerCase s)) sel); [done | by destruct Hr].
Qed.

(** The routine reads the search text through its normal form only. *)
Lemma updateHighlight_normalized v scene s1 s2 sel h :
  trim (toLowerCase s1) = trim (toLowerCase s2) →
  updateHighlight v scene s1 sel h = updateHighlight v scene s2 sel h.
Proof. intros Hn. unfold updateHighlight. by rewrite Hn. Qed.

(** ** The substring test *)

Lemma append_cons x (a b : string) : String x a ++ b = String x (a ++ b).
Proof. reflexivity. Qed.

Lemma append_assoc (a b c : string) : (a ++ b) ++ c = a ++ (b ++ c).
Proof. induction a as [| x a IH]; [done |]. by rewrite !append_cons, IH. Qed.

Lemma startsWith_spec s p : startsWith s p = true ↔ ∃ b, s = p ++ b.
Proof.
  revert s. induction p as [| a p IH]; intros s.
  - destruct s; split; try done; intros _; by eexists.
  - destruct s as [| b s]; cbn [startsWith].
    + split; [done |]. intros [t Ht]. rewrite append_cons in Ht. done.
    + rewrite andb_true_iff, Ascii.eqb_eq, IH. split.
      * intros [-> [t ->]]. by exists t.
      * intros [t Ht]. rewrite append_cons in Ht. injection Ht as -> ->.
        split; [done | by exists t].
Qed.

Lemma includes_spec s p : includes s p = true ↔ ∃ a b, s = a ++ p ++ b.
Proof.
  induction s as [| c r IH].
  - cbn [includes]. rewrite orb_false_r, startsWith_spec. split.
    + intros [b Hb]. by exists "", b.
    + intros (a & b & H). destruct a as [| x a]; [by exists b |].
      rewrite append_cons in H. done.
  - cbn [includes]. rewrite orb_true_iff, startsWith_spec, IH. split.
    + intros [[b Hb] | (a & b & ->)]; [by exists "", b |].
      by exists (String c a), b.
    + intros (a & b & H). destruct a as [| x a]; [left; by exists b |].
      rewrite append_cons in H. injection H as -> ->. right. by exists a, b.
Qed.

Lemma includes_trans s p q :
  includes s p = true → includes p q = true → includes s q = true.
Proof.
  rewrite !includes_spec. intros (a & b & ->) (a' & b' & ->).
  exists (a ++ a'), (b' ++ b). by rewrite !append_assoc.
Qed.

(** X9.  Narrowing: every mesh that matches a search text matches every
    non-empty text contained in it, so making the text longer never adds
    a match. *)
Theorem shorter_search_keeps_matches ns1 ns2 p :
  isEmpty ns1 = false → includes ns2 ns1 = true →
  isSearchMatch ns2 p = true → isSearchMatch ns1 p = true.
Proof.
  unfold isSearchMatch. intros Hne Hinc [_ Hm]%andb_true_iff.
  rewrite Hne. simpl. by eapply includes_trans.
Qed.

(** ** Restoring twice, and what a call allocates *)

Lemma traverse_fixed f h o :
  Forall (λ p, f h p = inr (p, h)) (nodes o) → traverse f h o = (o, h, None).
Proof.
  induction o as [p cs IH] using Object3D_ind'. cbn [nodes].
  intros [Hp Hcs]%Forall_cons. rewrite traverse_unfold, Hp.
  assert (traverseAll f cs h = (cs, h, None)) as ->; [| done].
  induction IH as [| c rest Hc _ IHrest]; [done |].
  simpl in Hcs. apply Forall_app in Hcs as [Hc' Hrest]. simpl.
  by rewrite (Hc Hc'), (IHrest Hrest).
Qed.

Lemma visit_restored v ns sel h p c :
  restoreMode ns sel = true → visit v ns sel h (setMaterial (setOriginal p c) c)
                              = inr (setMaterial (setOriginal p c) c, h).
Proof.
  intros Hmode. unfold visit, initOriginal. simpl.
  destruct (isMesh p); [| done]. fold (restoreMode ns sel). by rewrite Hmode.
Qed.

(** X5.  A restore is a fixed point: after a call with a blank search text
    and no selection, another such call returns the very same scene and
    heap; it allocates nothing. *)
Theorem restore_twice_changes_nothing v root s1 sel1 s2 sel2 h :
  wfScene h root = true → cloneableScene root = true →
  restoreMode (trim (toLowerCase s1)) sel1 = true →
  restoreMode (trim (toLowerCase s2)) sel2 = true →
  ∃ root' h',
    updateHighlight v (Some root) s1 sel1 h = (Some root', h', None) ∧
    updateHighlight v (Some root') s2 sel2 h' = (Some root', h', None).
Proof.
  intros Hwf Hcl Hm1 Hm2.
  destruct (updateHighlight_returns v root s1 sel1 h Hwf Hcl) as (root' & h' & Hu & _ & Hv).
  exists root', h'. split; [done |]. unfold updateHighlight.
  rewrite traverse_fixed; [done |].
  eapply Forall2_right; [| exact Hv]. intros p p' Hvis. simpl in Hvis.
  unfold visited in Hvis. destruct (isMesh p) eqn:Em.
  - destruct Hvis as (c & l & mv & -> & _ & _ & Hr & _). rewrite Hm1 in Hr. subst l.
    by apply visit_restored.
  - subst p'. by apply visit_other.
Qed.

Lemma visit_size v ns sel h p p' h' :
  visit v ns sel h p = inr (p', h') → size h' = size h + allocations ns sel p.
Proof.
  unfold allocations. destruct (isMesh p) eqn:Em.
  2:{ rewrite visit_other by done. intros [= <- <-]. lia. }
  intros Hv. apply visit_mesh_inv in Hv as (c & h1 & Hc & Hr); [| done].
  assert (size h1 = size h + match cache p with None => 1 | Some _ => 0 end) as H1.
  { destruct Hc as [[-> ->] | (-> & m & mv & _ & _ & Hn & ->)]; [lia |].
    rewrite map_size_insert_None by done. lia. }
  destruct Hr as [(-> & _ & ->) | (-> & mv & l & _ & Hn & _ & ->)]; [lia |].
  rewrite map_size_insert_None by done. lia.
Qed.

Lemma traverse_size v ns sel o :
  ∀ h o' h', traverse (visit v ns sel) h o = (o', h', None) →
    size h' = size h + sum_list_with (allocations ns sel) (nodes o).
Proof.
  induction o as [p cs IH] using Object3D_ind'. intros h o' h'.
  rewrite traverse_unfold.
  destruct (visit v ns sel h p) as [e | [p' h1]] eqn:Ef; [done |].
  destruct (traverseAll (visit v ns sel) cs h1) as [[cs' h2] r] eqn:Ea.
  intros [= <- <- ->]. apply visit_size in Ef. simpl. rewrite Nat.add_assoc, <- Ef.
  clear Ef h p p'. revert h1 cs' h2 Ea.
  induction IH as [| c rest Hc _ IHrest]; intros h1 cs' h2; simpl.
  - intros [= <- <-]. lia.
  - destruct (traverse (visit v ns sel) h1 c) as [[c' ha] [e |]] eqn:Ec; [done |].
    destruct (traverseAll (visit v ns sel) rest ha) as [[rest' hb] r'] eqn:Er.
    intros [= <- <- ->]. rewrite sum_list_with_app.
    rewrite (IHrest _ _ _ Er), (Hc _ _ _ Ec). lia.
Qed.

(** X6.  A call that returns creates one material for every mesh it visits
    for the first time (the cached original) and, unless it restores, one
    more for every mesh (the clone the preset is written to); nothing is
    removed from the heap, so every highlight of a scene of n meshes adds
    n materials. *)
Theorem call_allocates_one_clone_per_mesh v root s sel h :
  wfScene h root = true → cloneableScene root = true →
  ∃ root' h',
    updateHighlight v (Some root) s sel h = (Some root', h', None) ∧
    size h' = size h + sum_list_with (allocations (trim (toLowerCase s)) sel) (nodes root).
Proof.
  intros Hwf Hcl.
  destruct (updateHighlight_returns v root s sel h Hwf Hcl) as (root' & h' & Hu & _ & _).
  exists root', h'. split; [done |].
  unfold updateHighlight in Hu.
  destruct (traverse (visit v (trim (toLowerCase s)) sel) h root) as [[r1 h1] r] eqn:Et.
  injection Hu as -> -> ->. by apply traverse_size in Et.
Qed.

(** X7.  On a well-formed scene in which every mesh can be cloned, no
    history of calls throws: each call returns and leaves such a scene
    again, with the tree as it was but for the material references and
    cache entries of meshes, and with every material that existed
    unchanged. *)
Theorem no_history_throws v calls :
  ∀ root h, wfScene h root = true → cloneableScene root = true →
  ∃ root' h',
    updateHighlightSeq v calls (Some root) h = (Some root', h', None) ∧
    wfScene h' root' = true ∧ cloneableScene root' = true ∧
    frame root' = frame root ∧
    (∀ l m, h !! l = Some m → h' !! l = Some m).
Proof.
  induction calls as [| [s sel] rest IH]; intros root h Hwf Hcl.
  - by exists root, h.
  - destruct (updateHighlight_keeps v root s sel h Hwf Hcl)
      as (root1 & h1 & Hu & Hsub1 & Hwf1 & Hcl1 & _).
    destruct (IH root1 h1 Hwf1 Hcl1) as (root' & h' & Hs & Hwf' & Hcl' & Hfr & Hsub).
    exists root', h'. cbn [updateHighlightSeq]. rewrite Hu.
    split; [done |]. split; [done |]. split; [done |]. split.
    + rewrite Hfr. unfold updateHighlight in Hu.
      destruct (traverse (visit v (trim (toLowerCase s)) sel) h root)
        as [[r1 hh] r] eqn:Et.
      injection Hu as -> -> ->. eapply traverse_frame; [apply visit_mask | exact Et].
    + intros l m Hl. apply Hsub. by eapply lookup_weaken.
Qed.

(** ** Where a call stops *)

(** X8.  When some mesh can not be cloned the call throws a [TypeError] at
    the first such mesh in traversal order: the nodes before it carry
    their rendering, that mesh and every node after it are as they were. *)
Theorem throw_leaves_the_rest_untouched v root s sel h :
  wfScene h root = true → cloneableScene root = false →
  ∃ root' h' pre bad post pre',
    updateHighlight v (Some root) s sel h = (Some root', h', Some TypeError) ∧
    nodes root = (pre ++ bad :: post)%list ∧
    nodes root' = (pre' ++ bad :: post)%list ∧
    cloneable bad = false ∧
    Forall (λ p, cloneable p = true) pre ∧
    Forall2 (λ p p',
               if isMesh p then
                 ∃ c l mv, cache p' = Some c ∧ h' !! c = Some mv ∧
                           material p' = MatOne l ∧
                           h' !! l = Some (render v (trim (toLowerCase s)) sel p mv)
               else p' = p)
            pre pre'.
Proof.
  intros Hwf Hcl. set (ns := trim (toLowerCase s)).
  destruct (traverse_visit_outcome v ns sel h root Hwf) as (root' & h' & Ht).
  rewrite Hcl in Ht.
  destruct (traverse_thrown (visit v ns sel) (visit_subseteq v ns sel)
              (λ h1 h2 p p', wfProps h1 p = true → visited v ns sel h1 h2 p p'))
    with (o := root) (h := h) (o' := root') (h' := h') (e := TypeError)
    as (pre & bad & post & pre' & hb & Hn & Hn' & HQ & Hhb & Hf); [| | done |].
  { intros h1 h1' h2 h2' p p' HQ Hpre Hpost Hw.
    eapply visited_mono; [apply HQ; by eapply wfProps_weaken | done | done]. }
  { intros h1 p p' h2 Hv Hw. by apply visit_visited. }
  exists root', h', pre, bad, post, pre'. unfold updateHighlight. fold ns. rewrite Ht.
  split; [done |]. split; [done |]. split; [done |].
  unfold wfScene in Hwf. rewrite forallb_Forall, Hn in Hwf.
  apply Forall_app in Hwf as [Hwpre Hwrest]. apply Forall_cons in Hwrest as [Hwbad _].
  split.
  - destruct (cloneable bad) eqn:Eb; [| done].
    destruct (visit_ok v ns sel h hb bad Hhb Hwbad Eb) as (? & ? & Hok). congruence.
  - pose proof (Forall2_Forall_mp _ _ _ _ Hwpre HQ) as Hvis. split.
    + eapply Forall2_left; [| exact Hvis]. intros p p'. apply visited_cloneable.
    + eapply Forall2_impl; [exact Hvis |]. intros p p' Hv.
      unfold visited in Hv. destruct (isMesh p); [| done].
      destruct Hv as (c & l & mv & -> & Hc & Hl & _). by exists c, l, mv.
Qed.

(** ** From a click to the highlight *)

Lemma highlight_by_uuid root s id h :
  wfScene h root = true → cloneableScene root = true → isEmpty id = false →
  ∃ root' h',
    updateHighlight ByUuid (Some root) s (Some id) h = (Some root', h', None) ∧
    Forall2 (λ q q', isMesh q = true →
               ∃ c l mv, cache q' = Some c ∧ h' !! c = Some mv ∧
                         snapshotValue h q = Some mv ∧
                         material q' = MatOne l ∧ l ≠ c ∧ h !! l = None ∧
                         h' !! l = Some
                           (if String.eqb (uuid q) id then
                              {| color := "#f97316"; emissive := "#f97316";
                                 emissiveIntensity := 8 # 10;
                                 transparent := false; opacity := 1;
                                 roughness := roughness mv; metalness := metalness mv |}
                            else if negb (isEmpty (trim (toLowerCase s))) &&
                                    includes (toLowerCase (name q)) (trim (toLowerCase s)) then
                              {| color := "#3b82f6"; emissive := "#3b82f6";
                                 emissiveIntensity := 5 # 10;
                                 transparent := false; opacity := 1;
                                 roughness := roughness mv; metalness := metalness mv |}
                            else
                              {| color := "#cccccc"; emissive := emissive mv;
                                 emissiveIntensity := emissiveIntensity mv;
                                 transparent := true; opacity := 1 # 10;
                                 roughness := 1; metalness := metalness mv |}))
            (nodes root) (nodes root').
Proof.
  intros Hwf Hcl Hid.
  destruct (updateHighlight_renders ByUuid root s (Some id) h Hwf Hcl)
    as (root' & h' & Hu & Hr).
  exists root', h'. split; [done |].
  eapply Forall2_impl; [exact Hr |]. intros q q' Hq Em.
  destruct (Hq Em) as (c & l & mv & Hc & Hmv & Hsn & Hm & Hfr & Hl).
  assert (restoreMode (trim (toLowerCase s)) (Some id) = false) as Hmode
    by (unfold restoreMode; simpl; rewrite Hid; apply andb_false_r).
  unfold render in Hl. rewrite Hmode in Hl, Hfr. rewrite preset_fields in Hl.
  unfold isSelected in Hl. rewrite Hid in Hl. simpl in Hl.
  destruct Hfr as [Hfresh Hne]. exists c, l, mv. by repeat split.
Qed.

(** X12.  A click on a mesh of a loaded model whose [userData] has no [id]
    key selects by that mesh's uuid: when the next effect returns, the
    meshes with that uuid have the selected preset (colour and emissive
    colour #f97316, emissive intensity 0.8, opaque), the others the search
    preset (#3b82f6, 0.5, opaque) where the name matches the search text
    and the ghost preset (#cccccc, transparent, opacity 0.1, roughness 1)
    where it does not, each on a new clone of the cached original. *)
Theorem click_selects_the_clicked_mesh st p root h :
  wfScene h root = true → cloneableScene root = true →
  isEmpty (uuid p) = false → getKey "id" (extras (userData p)) = None →
  ∃ root' h',
    highlightEffect ByUuid (Viewer.handlePartSelect (clickedObject p) st) (Some root) h
      = (Some root', h', None) ∧
    Forall2 (λ q q', isMesh q = true →
               ∃ c l mv, cache q' = Some c ∧ h' !! c = Some mv ∧
                         snapshotValue h q = Some mv ∧
                         material q' = MatOne l ∧ l ≠ c ∧ h !! l = None ∧
                         h' !! l = Some
                           (if String.eqb (uuid q) (uuid p) then
                              {| color := "#f97316"; emissive := "#f97316";
                                 emissiveIntensity := 8 # 10;
                                 transparent := false; opacity := 1;
                                 roughness := roughness mv; metalness := metalness mv |}
                            else if negb (isEmpty (trim (toLowerCase (Viewer.searchTerm st)))) &&
                                    includes (toLowerCase (name q))
                                      (trim (toLowerCase (Viewer.searchTerm st))) then
                              {| color := "#3b82f6"; emissive := "#3b82f6";
                                 emissiveIntensity := 5 # 10;
                                 transparent := false; opacity := 1;
                                 roughness := roughness mv; metalness := metalness mv |}
                            else
                              {| color := "#cccccc"; emissive := emissive mv;
                                 emissiveIntensity := emissiveIntensity mv;
                                 transparent := true; opacity := 1 # 10;
                                 roughness := 1; metalness := metalness mv |}))
            (nodes root) (nodes root').
Proof.
  intros Hwf Hcl Hid Hkey. unfold highlightEffect, clickedObject. simpl. rewrite Hkey.
  by apply highlight_by_uuid.
Qed.

(** X13.  The spread of [userData] comes after [id: e.object.uuid]: when
    the clicked mesh carries a non-empty [id] key of its own, the
    selection is that value and not the uuid.  When the next effect
    returns, the selected preset (#f97316, 0.8, opaque) is on the meshes
    whose uuid is that value; every other mesh, the clicked one among
    them unless its uuid happens to be that value, has the search preset
    (#3b82f6, 0.5, opaque) or the ghost preset (#cccccc, transparent,
    opacity 0.1, roughness 1). *)
Theorem metadata_id_replaces_the_uuid st p x root h :
  wfScene h root = true → cloneableScene root = true →
  getKey "id" (extras (userData p)) = Some x → isEmpty x = false →
  Viewer.selection ByUuid (Viewer.handlePartSelect (clickedObject p) st) = Some x ∧
  ∃ root' h',
    highlightEffect ByUuid (Viewer.handlePartSelect (clickedObject p) st) (Some root) h
      = (Some root', h', None) ∧
    Forall2 (λ q q', isMesh q = true →
               ∃ c l mv, cache q' = Some c ∧ h' !! c = Some mv ∧
                         snapshotValue h q = Some mv ∧
                         material q' = MatOne l ∧ l ≠ c ∧ h !! l = None ∧
                         h' !! l = Some
                           (if String.eqb (uuid q) x then
                              {| color := "#f97316"; emissive := "#f97316";
                                 emissiveIntensity := 8 # 10;
                                 transparent := false; opacity := 1;
                                 roughness := roughness mv; metalness := metalness mv |}
                            else if negb (isEmpty (trim (toLowerCase (Viewer.searchTerm st)))) &&
                                    includes (toLowerCase (name q))
                                      (trim (toLowerCase (Viewer.searchTerm st))) then
                              {| color := "#3b82f6"; emissive := "#3b82f6";
                                 emissiveIntensity := 5 # 10;
                                 transparent := false; opacity := 1;
                                 roughness := roughness mv; metalness := metalness mv |}
                            else
                              {| color := "#cccccc"; emissive := emissive mv;
                                 emissiveIntensity := emissiveIntensity mv;
                                 transparent := true; opacity := 1 # 10;
                                 roughness := 1; metalness := metalness mv |}))
            (nodes root) (nodes root').
Proof.
  intros Hwf Hcl Hkey Hx. unfold highlightEffect, clickedObject. simpl. rewrite Hkey.
  split; [done |]. by apply highlight_by_uuid.
Qed.

Lemma updateHighlight_restores v root s sel h :
  wfScene h root = true → cloneableScene root = true →
  restoreMode (trim (toLowerCase s)) sel = true →
  ∃ root' h',
    updateHighlight v (Some root) s sel h = (Some root', h', None) ∧
    Forall2 (λ p p', isMesh p = true →
               ∃ c mv, material p' = MatOne c ∧ cache p' = Some c ∧
                       h' !! c = Some mv ∧ snapshotValue h p = Some mv)
            (nodes root) (nodes root').
Proof.
  intros Hwf Hcl Hmode.
  destruct (updateHighlight_renders v root s sel h Hwf Hcl) as (root' & h' & Hu & Hv).
  exists root', h'. split; [done |].
  eapply Forall2_impl; [exact Hv |]. intros p p' Hp Em.
  destruct (Hp Em) as (c & l & mv & Hc & Hmv & Hsn & Hm & Hr & _).
  rewrite Hmode in Hr. subst l. by exists c, mv.
Qed.

End Routine.

(** * The ASCII instance, the panel and the demo scenes *)

(** ** Case folding and white space *)


Lemma lowerChar_cases c :
  lowerChar c = c ∨
  ((nat_of_ascii c <? 123) && (nat_of_ascii (lowerChar c) <? 123) &&
   (32 <? nat_of_ascii c) && (32 <? nat_of_ascii (lowerChar c)))%nat = true.
Proof.
  destruct c as [[] [] [] [] [] [] [] []]; vm_compute;
    first [left; reflexivity | right; reflexivity].
Qed.

Lemma eqb_lowerChar c n :
  (123 ≤ n)%nat → (nat_of_ascii (lowerChar c) =? n)%nat = (nat_of_ascii c =? n)%nat.
Proof.
  intros Hn. destruct (lowerChar_cases c) as [-> | H]; [done |].
  rewrite !andb_true_iff, !Nat.ltb_lt in H. destruct H as [[[? ?] ?] ?].
  transitivity false; [| symmetry]; apply Nat.eqb_neq; lia.
Qed.

Lemma leb_lowerChar_l c n :
  (123 ≤ n)%nat → (n <=? nat_of_ascii (lowerChar c))%nat = (n <=? nat_of_ascii c)%nat.
Proof.
  intros Hn. destruct (lowerChar_cases c) as [-> | H]; [done |].
  rewrite !andb_true_iff, !Nat.ltb_lt in H. destruct H as [[[? ?] ?] ?].
  transitivity false; [| symmetry]; apply Nat.leb_gt; lia.
Qed.

Lemma leb_lowerChar_r c n :
  (123 ≤ n)%nat → (nat_of_ascii (lowerChar c) <=? n)%nat = (nat_of_ascii c <=? n)%nat.
Proof.
  intros Hn. destruct (lowerChar_cases c) as [-> | H]; [done |].
  rewrite !andb_true_iff, !Nat.ltb_lt in H. destruct H as [[[? ?] ?] ?].
  transitivity true; [| symmetry]; apply Nat.leb_le; lia.
Qed.

Lemma isWhiteSpace_lowerChar c : isWhiteSpace (lowerChar c) = isWhiteSpace c.
Proof. destruct c as [[] [] [] [] [] [] [] []]; by vm_compute. Qed.

Lemma isWhiteSpace2_lowerChar c d :
  isWhiteSpace2 (lowerChar c) (lowerChar d) = isWhiteSpace2 c d.
Proof. unfold isWhiteSpace2. by rewrite !eqb_lowerChar by lia. Qed.

Lemma isWhiteSpace3_lowerChar c d e :
  isWhiteSpace3 (lowerChar c) (lowerChar d) (lowerChar e) = isWhiteSpace3 c d e.
Proof.
  unfold isWhiteSpace3.
  by rewrite !eqb_lowerChar, leb_lowerChar_l, leb_lowerChar_r by lia.
Qed.

Lemma whiteSpaceLength_toLowerCase s :
  whiteSpaceLength (toLowerCase s) = whiteSpaceLength s.
Proof.
  destruct s as [| c [| d [| e r]]]; simpl;
    rewrite ?isWhiteSpace_lowerChar, ?isWhiteSpace2_lowerChar, ?isWhiteSpace3_lowerChar;
    done.
Qed.

Lemma string_strong_ind (P : string → Prop) :
  (∀ s, (∀ t, (String.length t < String.length s)%nat → P t) → P s) → ∀ s, P s.
Proof.
  intros H s. remember (String.length s) as n eqn:En.
  revert s En. induction (lt_wf n) as [n _ IH]. intros s ->.
  apply H. intros t Ht. by apply (IH (String.length t)).
Qed.

Lemma trimStart_toLowerCase s : trimStart (toLowerCase s) = toLowerCase (trimStart s).
Proof.
  induction s as [s IH] using string_strong_ind.
  destruct s as [| c r1]; [done |].
  change (toLowerCase (String c r1)) with (String (lowerChar c) (toLowerCase r1)).
  cbn [trimStart].
  change (String (lowerChar c) (toLowerCase r1)) with (toLowerCase (String c r1)).
  rewrite whiteSpaceLength_toLowerCase.
  destruct (whiteSpaceLength (String c r1)) as [| [| [| k]]]; [done | | |].
  - apply IH. simpl. lia.
  - destruct r1 as [| d r2]; [done |]. apply IH. simpl. lia.
  - destruct r1 as [| d [| e r3]]; [done | done |]. apply IH. simpl. lia.
Qed.

Lemma allWhiteSpace_toLowerCase s : allWhiteSpace (toLowerCase s) = allWhiteSpace s.
Proof.
  induction s as [s IH] using string_strong_ind.
  destruct s as [| c r1]; [done |].
  change (toLowerCase (String c r1)) with (String (lowerChar c) (toLowerCase r1)).
  cbn [allWhiteSpace].
  change (String (lowerChar c) (toLowerCase r1)) with (toLowerCase (String c r1)).
  rewrite whiteSpaceLength_toLowerCase.
  destruct (whiteSpaceLength (String c r1)) as [| [| [| k]]]; [done | | |].
  - apply IH. simpl. lia.
  - destruct r1 as [| d r2]; [done |]. apply IH. simpl. lia.
  - destruct r1 as [| d [| e r3]]; [done | done |]. apply IH. simpl. lia.
Qed.

Lemma trimEnd_toLowerCase s : trimEnd (toLowerCase s) = toLowerCase (trimEnd s).
Proof.
  induction s as [| c r IH]; [done |].
  change (toLowerCase (String c r)) with (String (lowerChar c) (toLowerCase r)).
  cbn [trimEnd].
  change (String (lowerChar c) (toLowerCase r)) with (toLowerCase (String c r)).
  rewrite allWhiteSpace_toLowerCase.
  destruct (allWhiteSpace (String c r)); [done |]. simpl. by rewrite IH.
Qed.

Lemma trim_toLowerCase s : trim (toLowerCase s) = toLowerCase (trim s).
Proof. unfold trim. by rewrite trimStart_toLowerCase, trimEnd_toLowerCase. Qed.

Lemma lowerChar_idem c : lowerChar (lowerChar c) = lowerChar c.
Proof. destruct c as [[] [] [] [] [] [] [] []]; by vm_compute. Qed.

Lemma toLowerCase_idem s : toLowerCase (toLowerCase s) = toLowerCase s.
Proof. induction s as [| c r IH]; [done |]. simpl. by rewrite lowerChar_idem, IH. Qed.

Lemma whiteSpaceLength_trimStart s : whiteSpaceLength (trimStart s) = 0%nat.
Proof.
  induction s as [s IH] using string_strong_ind.
  destruct s as [| c r1]; [done |]. cbn [trimStart].
  destruct (whiteSpaceLength (String c r1)) as [| [| [| k]]] eqn:E; [done | | |].
  - apply IH. simpl. lia.
  - destruct r1 as [| d r2]; [| apply IH; simpl; lia].
    simpl in E. by destruct (isWhiteSpace c).
  - destruct r1 as [| d [| e r3]]; [| | apply IH; simpl; lia].
    + simpl in E. by destruct (isWhiteSpace c).
    + simpl in E. by destruct (isWhiteSpace c), (isWhiteSpace2 c d).
Qed.

Lemma trimStart_fixed s : whiteSpaceLength s = 0%nat → trimStart s = s.
Proof. intros E. destruct s as [| c r1]; [done |]. cbn [trimStart]. by rewrite E. Qed.

Lemma trimEnd_split s : ∃ w, s = trimEnd s ++ w ∧ allWhiteSpace w = true.
Proof.
  induction s as [| c r IH]; [by exists "" |]. cbn [trimEnd].
  destruct (allWhiteSpace (String c r)) eqn:E.
  - by exists (String c r).
  - destruct IH as (w & Hw & Hws). exists w. split; [| done].
    rewrite append_cons. by rewrite <- Hw.
Qed.

Lemma whiteSpaceLength_app u w :
  (0 < whiteSpaceLength u)%nat → whiteSpaceLength (u ++ w) = whiteSpaceLength u.
Proof.
  intros H. destruct u as [| c [| d [| e r]]]; simpl in *; [lia | | |].
  - destruct (isWhiteSpace c); [done | lia].
  - rewrite ?append_cons. destruct (isWhiteSpace c); [done |].
    destruct (isWhiteSpace2 c d); [done | lia].
  - done.
Qed.

Lemma allWhiteSpace_app a b :
  allWhiteSpace a = true → allWhiteSpace (a ++ b) = allWhiteSpace b.
Proof.
  induction a as [a IH] using string_strong_ind. intros Ha.
  destruct a as [| c r1]; [done |].
  assert (Hpos : (0 < whiteSpaceLength (String c r1))%nat).
  { cbn [allWhiteSpace] in Ha. destruct (whiteSpaceLength (String c r1)); [done | lia]. }
  pose proof (whiteSpaceLength_app (String c r1) b Hpos) as Happ.
  rewrite append_cons in *. cbn [allWhiteSpace] in Ha |- *. rewrite Happ.
  destruct (whiteSpaceLength (String c r1)) as [| [| [| k]]]; [done | | |].
  - apply IH; [simpl; lia | done].
  - destruct r1 as [| d r2]; [done |]. rewrite append_cons.
    apply IH; [simpl; lia | done].
  - destruct r1 as [| d [| e r3]]; [done | done |]. rewrite !append_cons.
    apply IH; [simpl; lia | done].
Qed.

Lemma whiteSpaceLength_trimEnd s :
  whiteSpaceLength s = 0%nat → whiteSpaceLength (trimEnd s) = 0%nat.
Proof.
  intros E. destruct (trimEnd_split s) as (w & Hw & _).
  destruct (whiteSpaceLength (trimEnd s)) as [| k] eqn:Ek; [done |].
  rewrite Hw, whiteSpaceLength_app in E; lia.
Qed.

Lemma allWhiteSpace_trimEnd s : allWhiteSpace (trimEnd s) = allWhiteSpace s.
Proof.
  destruct (trimEnd_split s) as (w & Hw & Hws).
  destruct (allWhiteSpace (trimEnd s)) eqn:E.
  - rewrite Hw. by rewrite allWhiteSpace_app.
  - symmetry. induction s as [| c r IH]; [done |].
    cbn [trimEnd] in E. by destruct (allWhiteSpace (String c r)) eqn:E'.
Qed.

Lemma trimEnd_idem s : trimEnd (trimEnd s) = trimEnd s.
Proof.
  induction s as [| c r IH]; [done |]. cbn [trimEnd].
  destruct (allWhiteSpace (String c r)) eqn:E; [done |].
  assert (H : trimEnd (String c r) = String c (trimEnd r)).
  { cbn [trimEnd]. by rewrite E. }
  cbn [trimEnd]. rewrite <- H at 1. rewrite allWhiteSpace_trimEnd, E. by rewrite IH.
Qed.

Lemma trim_idem s : trim (trim s) = trim s.
Proof.
  unfold trim.
  rewrite (trimStart_fixed (trimEnd (trimStart s))).
  - apply trimEnd_idem.
  - apply whiteSpaceLength_trimEnd, whiteSpaceLength_trimStart.
Qed.

Lemma normalize_idem s :
  trim (toLowerCase (trim (toLowerCase s))) = trim (toLowerCase s).
Proof.
  by rewrite (trim_toLowerCase s), toLowerCase_idem, trim_toLowerCase, trim_idem.
Qed.

Lemma trimStart_allWhiteSpace s : allWhiteSpace s = true → trimStart s = "".
Proof.
  induction s as [s IH] using string_strong_ind. intros Ha.
  destruct s as [| c r1]; [done |]. cbn [allWhiteSpace] in Ha. cbn [trimStart].
  destruct (whiteSpaceLength (String c r1)) as [| [| [| k]]]; [done | | |].
  - apply IH; [simpl; lia | done].
  - destruct r1 as [| d r2]; [done |]. apply IH; [simpl; lia | done].
  - destruct r1 as [| d [| e r3]]; [done | done |]. apply IH; [simpl; lia | done].
Qed.

Lemma trim_allWhiteSpace s : allWhiteSpace s = true → trim s = "".
Proof. intros H. unfold trim. by rewrite trimStart_allWhiteSpace. Qed.

Lemma allWhiteSpace_trimStart s : allWhiteSpace (trimStart s) = allWhiteSpace s.
Proof.
  induction s as [s IH] using string_strong_ind.
  destruct s as [| c r1]; [done |]. cbn [trimStart allWhiteSpace].
  destruct (whiteSpaceLength (String c r1)) as [| [| [| k]]] eqn:E.
  - cbn [allWhiteSpace]. by rewrite E.
  - apply IH. simpl. lia.
  - destruct r1 as [| d r2]; [| apply IH; simpl; lia].
    simpl in E. by destruct (isWhiteSpace c).
  - destruct r1 as [| d [| e r3]]; [| | apply IH; simpl; lia].
    + simpl in E. by destruct (isWhiteSpace c).
    + simpl in E. by destruct (isWhiteSpace c), (isWhiteSpace2 c d).
Qed.

Lemma trimEnd_empty s : trimEnd s = "" → allWhiteSpace s = true.
Proof.
  destruct s as [| c r]; [done |]. cbn [trimEnd].
  by destruct (allWhiteSpace (String c r)).
Qed.

Lemma trim_empty_iff s : trim s = "" ↔ allWhiteSpace s = true.
Proof.
  split; [| apply trim_allWhiteSpace].
  unfold trim. intros H%trimEnd_empty. by rewrite allWhiteSpace_trimStart in H.
Qed.

Lemma normalize_empty_iff s : trim (toLowerCase s) = "" ↔ allWhiteSpace s = true.
Proof. by rewrite trim_empty_iff, allWhiteSpace_toLowerCase. Qed.

(** ** The restore, and the scenes on which a call stops short *)

(** C1, as amended.  On a scene where every mesh has a cached original or
    holds a single material, after any history of calls, a call with the
    search text and the selection both empty returns and leaves every
    mesh with its cached original as its active material (the same
    object, not a copy), and that object carries the field values the
    mesh's material had before the first of those calls. *)
Theorem restore_sets_cached_original v calls root sel h :
  wfScene h root = true → cloneableScene root = true → truthy sel = false →
  ∃ root' h',
    updateHighlightSeq toLowerCase v (calls ++ [("", sel)]) (Some root) h
      = (Some root', h', None) ∧
    Forall2 (λ p p', isMesh p = true →
               ∃ c mv, material p' = MatOne c ∧ cache p' = Some c ∧
                       h' !! c = Some mv ∧ snapshotValue h p = Some mv)
            (nodes root) (nodes root').
Proof.
  intros Hwf Hcl Hsel. apply restore_after_history; [done | done |].
  unfold restoreMode. by rewrite Hsel.
Qed.

(** C1 as stated fails: on a loaded model with a mesh of two material
    groups the call with nothing searched and nothing selected throws at
    that mesh, which keeps its array and gets no cached original, and the
    mesh after it is not reached. *)
Lemma restore_stops_at_multi_material_mesh :
  wfScene multiMaterialHeap multiMaterialScene = true ∧
  let '(scene', h', r) :=
    updateHighlight toLowerCase ByUuid (Some multiMaterialScene) "" None multiMaterialHeap in
  r = Some TypeError ∧
  from_option (λ root', map (λ p, (name p, material p, cache p)) (nodes root')) [] scene'
  = [("Desk", MatNone, None);
     ("Desk-Top", MatOne 3%positive, Some 3%positive);
     ("Desk-Drawer", MatArray [1%positive; 2%positive], None);
     ("Desk-Leg", MatOne 1%positive, None)].
Proof. split; vm_compute; [reflexivity | by split]. Qed.

(** C2 as stated fails: on the same model the selected mesh comes after
    the mesh of two material groups; the call throws before it reaches
    the selected mesh, which keeps its brown material. *)
Lemma selected_mesh_behind_multi_material_mesh_is_not_highlighted :
  wfScene multiMaterialHeap multiMaterialScene = true ∧
  let '(scene', h', r) :=
    updateHighlight toLowerCase ByUuid (Some multiMaterialScene) "" (Some "u3")
      multiMaterialHeap in
  r = Some TypeError ∧
  from_option (λ root', map (λ p, (uuid p, material p, activeColor h' p)) (nodes root'))
    [] scene'
  = [("u0", MatNone, None);
     ("u1", MatOne 4%positive, Some "#cccccc");
     ("u2", MatArray [1%positive; 2%positive], None);
     ("u3", MatOne 1%positive, Some "#8b5a2b")].
Proof. split; vm_compute; [reflexivity | by split]. Qed.

(** C3 as stated fails: on the same model, with a search text that no
    name contains and nothing selected, the mesh after the mesh of two
    material groups is not ghosted; it keeps its brown material. *)
Lemma unmatched_mesh_behind_multi_material_mesh_is_not_ghosted :
  wfScene multiMaterialHeap multiMaterialScene = true ∧
  let '(scene', h', r) :=
    updateHighlight toLowerCase ByUuid (Some multiMaterialScene) "zzz" None
      multiMaterialHeap in
  r = Some TypeError ∧
  from_option (λ root', map (λ p, (name p, material p, activeColor h' p)) (nodes root'))
    [] scene'
  = [("Desk", MatNone, None);
     ("Desk-Top", MatOne 4%positive, Some "#cccccc");
     ("Desk-Drawer", MatArray [1%positive; 2%positive], None);
     ("Desk-Leg", MatOne 1%positive, Some "#8b5a2b")].
Proof. split; vm_compute; [reflexivity | by split]. Qed.

(** C3, as amended.  On a scene where every mesh has a cached original or
    holds a single material, whatever function folds the case, the call
    returns and a mesh that is not the selected part and whose lower-cased
    name does not contain the trimmed, lower-cased search text ends with
    the ghost preset (colour #cccccc, transparent, opacity 0.1,
    roughness 1) on a new clone of its cached original.  On the engine,
    the search text "gear", and as well " GEAR ", gives the search colour
    to "Gear-Drive-Main" and the ghost colour to "Shaft-Coupling" and to
    every other part. *)
Theorem unmatched_mesh_is_ghosted (lower : string → string) v root s sel h :
  wfScene h root = true → cloneableScene root = true →
  (∃ root' h',
    updateHighlight lower v (Some root) s sel h = (Some root', h', None) ∧
    Forall2 (λ p p', isMesh p = true → isSelected lower v p sel = false →
               includes (lower (name p)) (trim (lower s)) = false →
               ∃ c l mv, cache p' = Some c ∧ h' !! c = Some mv ∧
                         snapshotValue h p = Some mv ∧
                         material p' = MatOne l ∧ l ≠ c ∧ h !! l = None ∧
                         h' !! l = Some
                           {| color := "#cccccc"; emissive := emissive mv;
                              emissiveIntensity := emissiveIntensity mv;
                              transparent := true; opacity := 1 # 10;
                              roughness := 1; metalness := metalness mv |})
            (nodes root) (nodes root')) ∧
  Forall (λ text,
            let '(scene', h', r) :=
              updateHighlight toLowerCase ByName (Some engineScene) text None engineHeap in
            r = None ∧
            from_option (λ root', map (λ p, (name p, activeColor h' p))
                                    (filter (λ p, isMesh p = true) (nodes root'))) [] scene'
            = [("Engine-Housing-Outer", Some "#cccccc"); ("Piston-001", Some "#cccccc");
               ("Piston-002", Some "#cccccc"); ("Piston-003", Some "#cccccc");
               ("Piston-004", Some "#cccccc"); ("Gear-Drive-Main", Some "#3b82f6");
               ("Shaft-Coupling", Some "#cccccc")])
         ["gear"; " GEAR "].
Proof.
  intros Hwf Hcl. split; [by apply unmatched_ghosted |].
  apply Forall_cons. split; [vm_compute; by split |].
  apply Forall_cons. split; [vm_compute; by split | constructor].
Qed.

(** C5 as stated fails: the mesh of two material groups is reached by
    two calls in a row and has no cached original after either; each call
    throws at it, and the mesh after it is never reached. *)
Lemma multi_material_mesh_gets_no_snapshot :
  let '(scene1, h1, r1) :=
    updateHighlight toLowerCase ByUuid (Some multiMaterialScene) "desk" None
      multiMaterialHeap in
  let '(scene2, h2, r2) := updateHighlight toLowerCase ByUuid scene1 "desk" None h1 in
  r1 = Some TypeError ∧ r2 = Some TypeError ∧
  from_option (λ root, map (λ p, (name p, cache p)) (nodes root)) [] scene1
  = [("Desk", None); ("Desk-Top", Some 3%positive); ("Desk-Drawer", None);
     ("Desk-Leg", None)] ∧
  from_option (λ root, map (λ p, (name p, cache p)) (nodes root)) [] scene2
  = [("Desk", None); ("Desk-Top", Some 3%positive); ("Desk-Drawer", None);
     ("Desk-Leg", None)].
Proof. vm_compute. by repeat split. Qed.

(** C6 as stated fails: on a loaded model with a mesh of two material
    groups the routine throws. *)
Lemma multi_material_mesh_throws :
  wfScene multiMaterialHeap multiMaterialScene = true ∧
  snd (updateHighlight toLowerCase ByUuid (Some multiMaterialScene) "desk" None
         multiMaterialHeap)
    = Some TypeError ∧
  from_option (λ root', map cache (nodes root')) []
    (fst (fst (updateHighlight toLowerCase ByUuid (Some multiMaterialScene) "desk" None
                 multiMaterialHeap)))
    = [None; Some 3%positive; None; None].
Proof. repeat split; vm_compute; reflexivity. Qed.

(** ** White space and normal forms of the search text *)

Lemma normalize_whiteSpace s : allWhiteSpace s = true → trim (toLowerCase s) = "".
Proof. apply normalize_empty_iff. Qed.

(** C10.  A search text of white space only gives the state, and the
    outcome, that the empty search text gives. *)
Theorem whitespace_search_is_empty_search v scene s sel h :
  allWhiteSpace s = true →
  updateHighlight toLowerCase v scene s sel h = updateHighlight toLowerCase v scene "" sel h.
Proof.
  intros Hs. apply updateHighlight_normalized. by rewrite (normalize_whiteSpace s Hs).
Qed.

(** X4.  The routine on the normal form of a search text (lower-cased,
    trimmed) does what it does on the text itself: " GEAR " and "gear"
    give the same scene, heap and outcome. *)
Theorem normalized_search_gives_same_result v scene s sel h :
  updateHighlight toLowerCase v scene (trim (toLowerCase s)) sel h =
  updateHighlight toLowerCase v scene s sel h.
Proof. apply updateHighlight_normalized, normalize_idem. Qed.

(** ** The panel and the table *)

(** C7.  Changing the active system makes it the given one, clears the
    selected part and the search text, and keeps the auto-rotate flag; the
    routine is then called with no selection, in either revision. *)
Theorem system_change_resets_selection_and_search (system : Viewer.System) (st : Viewer.State) :
  Viewer.activeSystem (Viewer.handleSystemChange system st) = system ∧
  Viewer.selectedPart (Viewer.handleSystemChange system st) = None ∧
  Viewer.searchTerm (Viewer.handleSystemChange system st) = "" ∧
  Viewer.autoRotate (Viewer.handleSystemChange system st) = Viewer.autoRotate st ∧
  ∀ v, Viewer.selection v (Viewer.handleSystemChange system st) = None.
Proof. by repeat split. Qed.

(** C8.  The table is a function of the tag: the engine, the pump and the
    circuit each have their fixed parts in their fixed order, and any tag
    other than the engine's and the pump's gives the circuit. *)
Theorem parts_fixed_table :
  (∀ type, type ≠ "demo-engine" → type ≠ "demo-pump" →
           Procedural.parts type = Procedural.parts "demo-circuit") ∧
  map Procedural.name (Procedural.parts "demo-engine") =
    ["Engine-Housing-Outer"; "Piston-001"; "Piston-002"; "Piston-003"; "Piston-004";
     "Gear-Drive-Main"; "Shaft-Coupling"] ∧
  map Procedural.name (Procedural.parts "demo-pump") =
    ["Reservoir-Tank"; "Valve-Inlet"; "Valve-Outlet"; "Pipe-Connector"] ∧
  map Procedural.name (Procedural.parts "demo-circuit") =
    ["PCB-Board-Base"; "Chip-CPU"; "Capacitor-C1"; "Capacitor-C2"; "Resistor-Array"] ∧
  map Procedural.geo (Procedural.parts "demo-engine") =
    [Procedural.box; Procedural.cylinder; Procedural.cylinder; Procedural.cylinder;
     Procedural.cylinder; Procedural.torus; Procedural.box].
Proof.
  split; [| by repeat split].
  intros type He Hp. unfold Procedural.parts.
  destruct (String.eqb_spec type "demo-engine") as [-> | _]; [done |].
  destruct (String.eqb_spec type "demo-pump") as [-> | _]; done.
Qed.

(** ** The choice of the loader *)

Lemma toLowerCase_append a b : toLowerCase (a ++ b) = toLowerCase a ++ toLowerCase b.
Proof. induction a as [| x a IH]; [done |]. rewrite append_cons. simpl. by rewrite IH. Qed.

Lemma toLowerCase_split u a b :
  toLowerCase u = a ++ b → ∃ a' b', u = a' ++ b' ∧ toLowerCase a' = a ∧ toLowerCase b' = b.
Proof.
  revert u. induction a as [| x a IH]; intros u H.
  - by exists "", u.
  - rewrite append_cons in H. destruct u as [| y u]; [done |]. simpl in H.
    injection H as Hx Hu. destruct (IH u Hu) as (a' & b' & -> & <- & <-).
    exists (String y a'), b'. simpl. by rewrite Hx.
Qed.

Lemma endsWith_spec s p : endsWith s p = true ↔ ∃ a, s = a ++ p.
Proof.
  induction s as [| c r IH]; cbn [endsWith].
  - rewrite orb_false_r, String.eqb_eq. split.
    + intros <-. by exists "".
    + intros [a H]. destruct a as [| x a]; [done |]. rewrite append_cons in H. done.
  - rewrite orb_true_iff, String.eqb_eq, IH. split.
    + intros [<- | [a ->]]; [by exists "" | by exists (String c a)].
    + intros [a H]. destruct a as [| x a]; [by left |].
      rewrite append_cons in H. injection H as -> ->. right. by exists a.
Qed.

(** X10.  [SmartModel] takes the FBX loader exactly for the paths that end
    in ".fbx" in any letter case, and the GLTF loader for every other
    path, supported extension or not. *)
Theorem fbx_loader_iff_fbx_extension url :
  SmartModel url = FbxModel ↔ ∃ base ext, url = base ++ ext ∧ toLowerCase ext = ".fbx".
Proof.
  unfold SmartModel. split.
  - destruct (endsWith (toLowerCase url) ".fbx") eqn:E; [| done]. intros _.
    apply endsWith_spec in E as [a Ha].
    apply toLowerCase_split in Ha as (base & ext & -> & _ & Hext). by exists base, ext.
  - intros (base & ext & -> & Hext).
    assert (endsWith (toLowerCase (base ++ ext)) ".fbx" = true) as ->; [| done].
    apply endsWith_spec. exists (toLowerCase base). by rewrite toLowerCase_append, Hext.
Qed.

(** ** Events of the panel *)

Lemma handle_keeps_listed systems st e st' :
  Viewer.activeSystem st ∈ systems → Panel.handle systems st e = Some st' →
  Viewer.activeSystem st' ∈ systems.
Proof.
  intros Hin. destruct e; simpl.
  - destruct (negb (Panel.detailView st) && bool_decide (system ∈ systems)) eqn:E; [| done].
    intros [= <-]. simpl. apply andb_true_iff in E as [_ E]. by apply bool_decide_eq_true in E.
  - destruct (Panel.detailView st); [| done]. by intros [= <-].
  - by intros [= <-].
  - by intros [= <-].
  - destruct (negb (isEmpty (Viewer.searchTerm st))); [| done]. by intros [= <-].
  - by intros [= <-].
  - by intros [= <-].
Qed.

(** X11.  Whatever the user does, the active system is an entry of the
    table: the panel starts on the first entry and changes system only
    through a button of the list, which exists only for an entry (and only
    while no part is selected). *)
Theorem active_system_is_always_listed systems st0 events st :
  Panel.initial systems = Some st0 → Panel.run systems st0 events = Some st →
  Viewer.activeSystem st ∈ systems.
Proof.
  intros Hinit. assert (Viewer.activeSystem st0 ∈ systems) as Hin.
  { destruct systems as [| first rest]; [done |]. injection Hinit as <-. simpl. left. }
  clear Hinit. revert st0 Hin. induction events as [| e rest IH]; intros st0 Hin; simpl.
  - by intros [= <-].
  - destruct (Panel.handle systems st0 e) as [st1 |] eqn:E; [| done].
    apply IH. by eapply handle_keeps_listed.
Qed.

(** ** From a control of the panel to the highlight *)

(** X14.  After "Reset View" the effect runs the routine in its restore
    branch: on a scene where every mesh has a cached original or holds a
    single material it returns, and every mesh has its cached original as
    active material (the same object), with the values that object had
    before the call (for a mesh without one, the values of the material
    it held), whatever was selected or searched before. *)
Theorem reset_view_restores v st root h :
  wfScene h root = true → cloneableScene root = true →
  ∃ root' h',
    highlightEffect toLowerCase v (Panel.resetView st) (Some root) h
      = (Some root', h', None) ∧
    Forall2 (λ p p', isMesh p = true →
               ∃ c mv, material p' = MatOne c ∧ cache p' = Some c ∧
                       h' !! c = Some mv ∧ snapshotValue h p = Some mv)
            (nodes root) (nodes root').
Proof.
  intros Hwf Hcl. unfold highlightEffect. by apply updateHighlight_restores.
Qed.

Lemma Forall2_filter_map {A B C} (f : A → bool) (g : B → bool) (fa : A → C) (gb : B → C)
    (l : list A) (l' : list B) :
  Forall2 (λ x y, g y = f x ∧ (f x = true → gb y = fa x)) l l' →
  map gb (filter (λ y, g y = true) l') = map fa (filter (λ x, f x = true) l).
Proof.
  induction 1 as [| x y l l' [Hg Hf] _ IH]; [done |].
  rewrite !filter_cons. destruct (decide (f x = true)) as [Hx | Hx].
  - rewrite decide_True by congruence. simpl. by rewrite IH, Hf.
  - rewrite decide_False by congruence. done.
Qed.

(** The names of a table are not empty, and two of them that are equal in
    lower case are equal. *)
Lemma parts_names_fold type :
  forallb (λ q, negb (isEmpty (Procedural.name q)) &&
                forallb (λ q', Bool.eqb
                                 (String.eqb (toLowerCase (Procedural.name q'))
                                             (toLowerCase (Procedural.name q)))
                                 (String.eqb (Procedural.name q') (Procedural.name q)))
                        (Procedural.parts type))
          (Procedural.parts type) = true.
Proof.
  unfold Procedural.parts. destruct (String.eqb type "demo-engine"); [by vm_compute |].
  destruct (String.eqb type "demo-pump"); by vm_compute.
Qed.

(** X15.  In each of the three demo systems, on any scene whose meshes
    carry, in order, the names of the system's table (first mounted or
    kept from another system, with whatever they hold as material and as
    cached original, each mesh having a cached original or a single
    material), a click on a part with no search text makes the effect
    colour the mesh of that part with the selection colour #f97316 and
    every other mesh with the ghost colour #cccccc: the names of a table
    are distinct, also in lower case. *)
Theorem click_on_demo_part_selects_it_alone type part st root h :
  wfScene h root = true → cloneableScene root = true →
  map name (filter (λ p, isMesh p = true) (nodes root))
    = map Procedural.name (Procedural.parts type) →
  In part (Procedural.parts type) →
  ∃ root' h',
    highlightEffect toLowerCase ByName
      (Viewer.handlePartSelect (clickedPart part) (Viewer.setSearchTerm "" st))
      (Some root) h = (Some root', h', None) ∧
    map (λ p, (name p, activeColor h' p)) (filter (λ p, isMesh p = true) (nodes root'))
    = map (λ q, (Procedural.name q,
                 Some (if String.eqb (Procedural.name q) (Procedural.name part)
                       then "#f97316" else "#cccccc")))
          (Procedural.parts type).
Proof.
  intros Hwf Hcl Hnames Hin. unfold highlightEffect.
  change (Viewer.searchTerm _) with "".
  change (Viewer.selection ByName _) with (Some (Procedural.name part)).
  destruct (updateHighlight_returns toLowerCase ByName root "" (Some (Procedural.name part))
              h Hwf Hcl) as (root' & h' & Hu & Hsub & Hv).
  exists root', h'. split; [exact Hu |].
  change (trim (toLowerCase "")) with "" in Hv.
  pose proof (parts_names_fold type) as Htab. rewrite forallb_forall in Htab.
  assert (isEmpty (Procedural.name part) = false) as Hne.
  { apply Htab in Hin. apply andb_true_iff in Hin as [Hin _]. by apply negb_true_iff. }
  set (paint := λ n : string,
         (n, Some (if String.eqb n (Procedural.name part) then "#f97316" else "#cccccc")
             : option Color)).
  transitivity (map (λ p, paint (name p)) (filter (λ p, isMesh p = true) (nodes root))).
  - apply Forall2_filter_map.
    assert (Forall (λ p, wfProps h p = true ∧
                         (isMesh p = true →
                          ∃ q, In q (Procedural.parts type) ∧ name p = Procedural.name q))
              (nodes root)) as Hall.
    { apply Forall_and. split; [unfold wfScene in Hwf; by rewrite forallb_Forall in Hwf |].
      apply Forall_forall. intros p Hp Em.
      assert (In (name p) (map Procedural.name (Procedural.parts type))) as Hq.
      { rewrite <- Hnames. apply in_map, list_elem_of_In, list_elem_of_filter. by split. }
      apply in_map_iff in Hq as (q & Hq & Hqin). by exists q. }
    eapply Forall2_Forall_mp; [exact Hall |].
    eapply Forall2_impl; [exact Hv |]. intros p p' Hvis [Hw Hq].
    destruct (isMesh p) eqn:Em.
    2:{ unfold visited in Hvis. rewrite Em in Hvis. subst p'. by rewrite Em. }
    destruct (visited_mesh _ _ _ _ _ _ _ _ Hsub Hw Em Hvis)
      as (c & l & mv & -> & _ & _ & Hl & _ & _).
    split; [done |]. intros _. destruct (Hq eq_refl) as (q & Hqin & Hname).
    unfold activeColor, paint. simpl. rewrite Hl. simpl. f_equal. f_equal.
    unfold render, restoreMode. simpl. rewrite Hne. simpl.
    rewrite preset_fields. unfold isSelected, isSearchMatch, partName.
    rewrite Hne, Hname. simpl.
    apply Htab in Hin. apply andb_true_iff in Hin as [_ Hall'].
    rewrite forallb_forall in Hall'. apply Hall' in Hqin.
    apply Bool.eqb_prop in Hqin. rewrite Hqin.
    by destruct (String.eqb (Procedural.name q) (Procedural.name part)).
  - rewrite <- (map_map name paint), Hnames, map_map. done.
Qed.

(** ** Instances on the demo scenes *)

(** The scenario of the engine: "piston" colours the four pistons with the
    search colour and ghosts the housing, the gear and the shaft. *)
Example piston_search_on_engine :
  let '(scene, h, r) :=
    updateHighlight toLowerCase ByName (Some engineScene) "piston" None engineHeap in
  r = None ∧
  from_option (λ root, map (activeColor h) (filter (λ p, isMesh p = true) (nodes root))) [] scene
  = [Some ghostColor; Some searchColor; Some searchColor; Some searchColor;
     Some searchColor; Some ghostColor; Some ghostColor].
Proof. vm_compute. by split. Qed.

Lemma restore_sets_cached_original_witness :
  wfScene engineHeap engineScene = true ∧ cloneableScene engineScene = true ∧
  ∃ root' h',
    updateHighlightSeq toLowerCase ByName
      ([("piston", None); ("", Some "Gear-Drive-Main")] ++ [("", None)])
      (Some engineScene) engineHeap = (Some root', h', None) ∧
    Forall2 (λ p p', isMesh p = true →
               ∃ c mv, material p' = MatOne c ∧ cache p' = Some c ∧
                       h' !! c = Some mv ∧ snapshotValue engineHeap p = Some mv)
            (nodes engineScene) (nodes root').
Proof.
  split; [vm_compute; reflexivity |]. split; [vm_compute; reflexivity |].
  apply (restore_sets_cached_original ByName
           [("piston", None); ("", Some "Gear-Drive-Main")] engineScene None engineHeap);
    vm_compute; reflexivity.
Defined.

Lemma selection_precedes_search_witness :
  wfScene engineHeap engineScene = true ∧ cloneableScene engineScene = true ∧
  ∃ root' h',
    updateHighlight toLowerCase ByName (Some engineScene) "piston" (Some "Piston-001")
      engineHeap = (Some root', h', None) ∧
    Forall2 (λ p p', isMesh p = true → identifier ByName p = "Piston-001" →
               ∃ c l mv, cache p' = Some c ∧ h' !! c = Some mv ∧
                         snapshotValue engineHeap p = Some mv ∧
                         material p' = MatOne l ∧ l ≠ c ∧ engineHeap !! l = None ∧
                         h' !! l = Some
                           {| color := "#f97316"; emissive := "#f97316";
                              emissiveIntensity := 6 # 10;
                              transparent := false; opacity := 1;
                              roughness := roughness mv; metalness := metalness mv |})
            (nodes engineScene) (nodes root').
Proof.
  split; [vm_compute; reflexivity |]. split; [vm_compute; reflexivity |].
  apply (selection_precedes_search toLowerCase ByName engineScene "piston" "Piston-001"
           engineHeap); vm_compute; reflexivity.
Defined.

Lemma unmatched_mesh_is_ghosted_witness :
  wfScene engineHeap engineScene = true ∧ cloneableScene engineScene = true ∧
  ∃ root' h',
    updateHighlight toLowerCase ByName (Some engineScene) " GEAR " None engineHeap
      = (Some root', h', None) ∧
    Forall2 (λ p p', isMesh p = true → isSelected toLowerCase ByName p None = false →
               includes (toLowerCase (name p)) (trim (toLowerCase " GEAR ")) = false →
               ∃ c l mv, cache p' = Some c ∧ h' !! c = Some mv ∧
                         snapshotValue engineHeap p = Some mv ∧
                         material p' = MatOne l ∧ l ≠ c ∧ engineHeap !! l = None ∧
                         h' !! l = Some
                           {| color := "#cccccc"; emissive := emissive mv;
                              emissiveIntensity := emissiveIntensity mv;
                              transparent := true; opacity := 1 # 10;
                              roughness := 1; metalness := metalness mv |})
            (nodes engineScene) (nodes root').
Proof.
  split; [vm_compute; reflexivity |]. split; [vm_compute; reflexivity |].
  destruct (unmatched_mesh_is_ghosted toLowerCase ByName engineScene " GEAR " None engineHeap)
    as [H _]; [vm_compute; reflexivity | vm_compute; reflexivity | exact H].
Defined.

Lemma highlight_idempotent_witness :
  wfScene multiMaterialHeap multiMaterialScene = true ∧
  ∃ root1 h1 root2 h2 r,
    updateHighlight toLowerCase ByUuid (Some multiMaterialScene) "desk" (Some "u3")
      multiMaterialHeap = (Some root1, h1, r) ∧
    updateHighlight toLowerCase ByUuid (Some root1) "desk" (Some "u3") h1
      = (Some root2, h2, r) ∧
    Forall2 (λ p1 p2, isMesh p1 = true →
               materialValues h2 p2 = materialValues h1 p1)
            (nodes root1) (nodes root2).
Proof.
  split; [vm_compute; reflexivity |].
  apply (highlight_idempotent toLowerCase ByUuid multiMaterialScene "desk" (Some "u3")
           multiMaterialHeap); vm_compute; reflexivity.
Defined.

Lemma original_captured_once_witness :
  wfScene multiMaterialHeap multiMaterialScene = true ∧
  ∃ root' h' r pre pre' post,
    updateHighlight toLowerCase ByUuid (Some multiMaterialScene) "top" (Some "u3")
      multiMaterialHeap = (Some root', h', r) ∧
    wfScene h' root' = true ∧
    (∀ l m, multiMaterialHeap !! l = Some m → h' !! l = Some m) ∧
    nodes multiMaterialScene = (pre ++ post)%list ∧ nodes root' = (pre' ++ post)%list ∧
    Forall (λ p, cloneable p = true) pre ∧
    match post with
    | [] => r = None
    | bad :: _ => r = Some TypeError ∧ cloneable bad = false
    end ∧
    Forall2 (λ p p',
               if isMesh p then
                 ∃ c l mv,
                   cache p' = Some c ∧ h' !! c = Some mv ∧
                   snapshotValue multiMaterialHeap p = Some mv ∧
                   match cache p with
                   | Some c0 => c = c0
                   | None => multiMaterialHeap !! c = None ∧
                             ∃ m, material p = MatOne m ∧ multiMaterialHeap !! m = Some mv
                   end ∧
                   material p' = MatOne l ∧
                   if restoreMode (trim (toLowerCase "top")) (Some "u3") then l = c
                   else
                     l ≠ c ∧ multiMaterialHeap !! l = None ∧
                     h' !! l = Some
                       (if isSelected toLowerCase ByUuid p (Some "u3") then
                          {| color := "#f97316"; emissive := "#f97316";
                             emissiveIntensity := 8 # 10;
                             transparent := false; opacity := 1;
                             roughness := roughness mv; metalness := metalness mv |}
                        else if negb (isEmpty (trim (toLowerCase "top"))) &&
                                includes (toLowerCase (name p)) (trim (toLowerCase "top")) then
                          {| color := "#3b82f6"; emissive := "#3b82f6";
                             emissiveIntensity := 5 # 10;
                             transparent := false; opacity := 1;
                             roughness := roughness mv; metalness := metalness mv |}
                        else
                          {| color := "#cccccc"; emissive := emissive mv;
                             emissiveIntensity := emissiveIntensity mv;
                             transparent := true; opacity := 1 # 10;
                             roughness := 1; metalness := metalness mv |})
               else p' = p)
            pre pre'.
Proof.
  split; [vm_compute; reflexivity |].
  apply (original_captured_once toLowerCase ByUuid multiMaterialScene "top" (Some "u3")
           multiMaterialHeap); vm_compute; reflexivity.
Defined.

Lemma null_root_is_noop_else_type_error_witness :
  wfRoot multiMaterialHeap (Some multiMaterialScene) = true ∧
  wfRoot engineHeap None = true ∧
  (∃ root' h' pre pre' post,
     updateHighlight toLowerCase ByUuid (Some multiMaterialScene) "" None multiMaterialHeap =
       (Some root', h',
        if cloneableScene multiMaterialScene then None else Some TypeError) ∧
     nodes multiMaterialScene = (pre ++ post)%list ∧ nodes root' = (pre' ++ post)%list ∧
     Forall (λ p, cloneable p = true) pre ∧
     match post with
     | [] => cloneableScene multiMaterialScene = true
     | bad :: _ => cloneableScene multiMaterialScene = false ∧ cloneable bad = false
     end ∧
     Forall2 (λ p p',
                if isMesh p then
                  ∃ c l mv, cache p' = Some c ∧ h' !! c = Some mv ∧
                            material p' = MatOne l ∧
                            (if restoreMode (trim (toLowerCase "")) None then l = c
                             else l ≠ c) ∧
                            h' !! l = Some (render toLowerCase ByUuid (trim (toLowerCase ""))
                                              None p mv)
                else p' = p)
             pre pre') ∧
  updateHighlight toLowerCase ByName None "gear" (Some "Piston-001") engineHeap
    = (None, engineHeap, None).
Proof.
  split; [vm_compute; reflexivity |]. split; [reflexivity |]. split.
  - apply (null_root_is_noop_else_type_error toLowerCase ByUuid (Some multiMaterialScene)
             "" None multiMaterialHeap); vm_compute; reflexivity.
  - apply (null_root_is_noop_else_type_error toLowerCase ByName None "gear"
             (Some "Piston-001") engineHeap); reflexivity.
Defined.

Lemma whitespace_search_is_empty_search_witness :
  allWhiteSpace blankText = true ∧
  updateHighlight toLowerCase ByName (Some engineScene) blankText (Some "Piston-001")
    engineHeap =
  updateHighlight toLowerCase ByName (Some engineScene) "" (Some "Piston-001") engineHeap.
Proof.
  split; [reflexivity |].
  apply (whitespace_search_is_empty_search ByName (Some engineScene) blankText
           (Some "Piston-001") engineHeap); reflexivity.
Defined.

Lemma parts_fixed_table_witness :
  Procedural.parts "demo-unknown" = Procedural.parts "demo-circuit".
Proof. apply (proj1 parts_fixed_table "demo-unknown"); discriminate. Defined.

(** ** More instances on the demo scenes *)

Lemma matched_mesh_gets_search_preset_witness :
  wfScene engineHeap engineScene = true ∧ cloneableScene engineScene = true ∧
  ∃ root' h',
    updateHighlight toLowerCase ByName (Some engineScene) " Piston" (Some "Gear-Drive-Main")
      engineHeap = (Some root', h', None) ∧
    Forall2 (λ p p', isMesh p = true →
               isSelected toLowerCase ByName p (Some "Gear-Drive-Main") = false →
               isEmpty (trim (toLowerCase " Piston")) = false →
               includes (toLowerCase (name p)) (trim (toLowerCase " Piston")) = true →
               ∃ c l mv, cache p' = Some c ∧ h' !! c = Some mv ∧
                         snapshotValue engineHeap p = Some mv ∧
                         material p' = MatOne l ∧ l ≠ c ∧ engineHeap !! l = None ∧
                         h' !! l = Some
                           {| color := "#3b82f6"; emissive := "#3b82f6";
                              emissiveIntensity := 5 # 10;
                              transparent := false; opacity := 1;
                              roughness := roughness mv; metalness := metalness mv |})
            (nodes engineScene) (nodes root').
Proof.
  split; [vm_compute; reflexivity |]. split; [vm_compute; reflexivity |].
  apply (matched_mesh_gets_search_preset toLowerCase ByName engineScene " Piston"
           (Some "Gear-Drive-Main") engineHeap); vm_compute; reflexivity.
Defined.

Lemma selection_alone_ghosts_the_rest_witness :
  wfScene engineHeap engineScene = true ∧ cloneableScene engineScene = true ∧
  isEmpty (trim (toLowerCase " ")) = true ∧ truthy (Some "Gear-Drive-Main") = true ∧
  ∃ root' h',
    updateHighlight toLowerCase ByName (Some engineScene) " " (Some "Gear-Drive-Main")
      engineHeap = (Some root', h', None) ∧
    Forall2 (λ p p', isMesh p = true →
               isSelected toLowerCase ByName p (Some "Gear-Drive-Main") = false →
               ∃ c l mv, cache p' = Some c ∧ h' !! c = Some mv ∧
                         snapshotValue engineHeap p = Some mv ∧
                         material p' = MatOne l ∧ l ≠ c ∧ engineHeap !! l = None ∧
                         h' !! l = Some
                           {| color := "#cccccc"; emissive := emissive mv;
                              emissiveIntensity := emissiveIntensity mv;
                              transparent := true; opacity := 1 # 10;
                              roughness := 1; metalness := metalness mv |})
            (nodes engineScene) (nodes root').
Proof.
  split; [vm_compute; reflexivity |]. split; [vm_compute; reflexivity |].
  split; [reflexivity |]. split; [reflexivity |].
  apply (selection_alone_ghosts_the_rest toLowerCase ByName engineScene " "
           (Some "Gear-Drive-Main") engineHeap); vm_compute; reflexivity.
Defined.

Lemma name_selection_ignores_case_witness :
  wfScene engineHeap engineScene = true ∧ cloneableScene engineScene = true ∧
  ∃ root' h',
    updateHighlight toLowerCase ByName (Some engineScene) "" (Some "PISTON-001") engineHeap
      = (Some root', h', None) ∧
    Forall2 (λ p p', isMesh p = true → toLowerCase (name p) = toLowerCase "PISTON-001" →
               ∃ c l mv, cache p' = Some c ∧ h' !! c = Some mv ∧
                         snapshotValue engineHeap p = Some mv ∧
                         material p' = MatOne l ∧ l ≠ c ∧ engineHeap !! l = None ∧
                         h' !! l = Some
                           {| color := "#f97316"; emissive := "#f97316";
                              emissiveIntensity := 6 # 10;
                              transparent := false; opacity := 1;
                              roughness := roughness mv; metalness := metalness mv |})
            (nodes engineScene) (nodes root').
Proof.
  split; [vm_compute; reflexivity |]. split; [vm_compute; reflexivity |].
  apply (name_selection_ignores_case toLowerCase engineScene "" "PISTON-001" engineHeap);
    vm_compute; reflexivity.
Defined.

Lemma restore_twice_changes_nothing_witness :
  wfScene engineHeap engineScene = true ∧ cloneableScene engineScene = true ∧
  ∃ root' h',
    updateHighlight toLowerCase ByUuid (Some engineScene) "" None engineHeap
      = (Some root', h', None) ∧
    updateHighlight toLowerCase ByUuid (Some root') "  " (Some "") h' = (Some root', h', None).
Proof.
  split; [vm_compute; reflexivity |]. split; [vm_compute; reflexivity |].
  apply (restore_twice_changes_nothing toLowerCase ByUuid engineScene "" None "  " (Some "")
           engineHeap); vm_compute; reflexivity.
Defined.

Lemma call_allocates_one_clone_per_mesh_witness :
  wfScene engineHeap engineScene = true ∧ cloneableScene engineScene = true ∧
  sum_list_with (allocations (trim (toLowerCase "piston")) None) (nodes engineScene) = 14 ∧
  ∃ root' h',
    updateHighlight toLowerCase ByName (Some engineScene) "piston" None engineHeap
      = (Some root', h', None) ∧
    size h' = size engineHeap +
              sum_list_with (allocations (trim (toLowerCase "piston")) None)
                (nodes engineScene).
Proof.
  split; [vm_compute; reflexivity |]. split; [vm_compute; reflexivity |].
  split; [vm_compute; reflexivity |].
  apply (call_allocates_one_clone_per_mesh toLowerCase ByName engineScene "piston" None
           engineHeap); vm_compute; reflexivity.
Defined.

Lemma no_history_throws_witness :
  wfScene engineHeap engineScene = true ∧ cloneableScene engineScene = true ∧
  ∃ root' h',
    updateHighlightSeq toLowerCase ByName
      [("gear", None); ("gear", Some "Shaft-Coupling"); ("", None); ("x", Some "y")]
      (Some engineScene) engineHeap = (Some root', h', None) ∧
    wfScene h' root' = true ∧ cloneableScene root' = true ∧
    frame root' = frame engineScene ∧
    (∀ l m, engineHeap !! l = Some m → h' !! l = Some m).
Proof.
  split; [vm_compute; reflexivity |]. split; [vm_compute; reflexivity |].
  apply (no_history_throws toLowerCase ByName
           [("gear", None); ("gear", Some "Shaft-Coupling"); ("", None); ("x", Some "y")]
           engineScene engineHeap); vm_compute; reflexivity.
Defined.

Lemma throw_leaves_the_rest_untouched_witness :
  wfScene multiMaterialHeap multiMaterialScene = true ∧
  cloneableScene multiMaterialScene = false ∧
  ∃ root' h' pre bad post pre',
    updateHighlight toLowerCase ByUuid (Some multiMaterialScene) "top" None multiMaterialHeap
      = (Some root', h', Some TypeError) ∧
    nodes multiMaterialScene = (pre ++ bad :: post)%list ∧
    nodes root' = (pre' ++ bad :: post)%list ∧
    cloneable bad = false ∧
    Forall (λ p, cloneable p = true) pre ∧
    Forall2 (λ p p',
               if isMesh p then
                 ∃ c l mv, cache p' = Some c ∧ h' !! c = Some mv ∧
                           material p' = MatOne l ∧
                           h' !! l = Some (render toLowerCase ByUuid (trim (toLowerCase "top"))
                                             None p mv)
               else p' = p)
            pre pre'.
Proof.
  split; [vm_compute; reflexivity |]. split; [vm_compute; reflexivity |].
  apply (throw_leaves_the_rest_untouched toLowerCase ByUuid multiMaterialScene "top" None
           multiMaterialHeap); vm_compute; reflexivity.
Defined.

Lemma shorter_search_keeps_matches_witness :
  isEmpty "pis" = false ∧ includes "piston-0" "pis" = true ∧
  isSearchMatch toLowerCase "piston-0" plainProps = true ∧
  isSearchMatch toLowerCase "pis" plainProps = true.
Proof.
  split; [reflexivity |]. split; [reflexivity |]. split; [reflexivity |].
  apply (shorter_search_keeps_matches toLowerCase "pis" "piston-0" plainProps); reflexivity.
Defined.

Lemma active_system_is_always_listed_witness :
  let pump := Viewer.mkSystem 2 "Hydraulic Pump System" "demo-pump"
                "Fluid control module. Contains Valves and Reservoirs." in
  let engine := Viewer.mkSystem 1 "Main Engine Assembly" "demo-engine"
                  "Primary propulsion unit. Contains Pistons, Gears, and Housing." in
  let st0 := Viewer.mkState engine None "" false in
  let st := Viewer.mkState pump None "" true in
  let events :=
    [Panel.SearchInput "gear";
     Panel.PartClick (clickedPart
       (Procedural.mkPart "Gear-Drive-Main" Procedural.torus [] [] None "#fbbf24"));
     Panel.BackClick; Panel.SystemClick pump; Panel.RotateClick] in
  Panel.initial Viewer.SYSTEMS = Some st0 ∧
  Panel.run Viewer.SYSTEMS st0 events = Some st ∧
  Viewer.activeSystem st ∈ Viewer.SYSTEMS.
Proof.
  intros pump engine st0 st events.
  split; [reflexivity |]. split; [vm_compute; reflexivity |].
  apply (active_system_is_always_listed Viewer.SYSTEMS st0 events st);
    [reflexivity | vm_compute; reflexivity].
Defined.

Lemma click_selects_the_clicked_mesh_witness :
  wfScene engineHeap engineScene = true ∧ cloneableScene engineScene = true ∧
  isEmpty (uuid plainProps) = false ∧
  getKey "id" (extras (userData plainProps)) = None ∧
  ∀ st, ∃ root' h',
    highlightEffect toLowerCase ByUuid
      (Viewer.handlePartSelect (clickedObject plainProps) st)
      (Some engineScene) engineHeap = (Some root', h', None) ∧
    Forall2 (λ q q', isMesh q = true →
               ∃ c l mv, cache q' = Some c ∧ h' !! c = Some mv ∧
                         snapshotValue engineHeap q = Some mv ∧
                         material q' = MatOne l ∧ l ≠ c ∧ engineHeap !! l = None ∧
                         h' !! l = Some
                           (if String.eqb (uuid q) (uuid plainProps) then
                              {| color := "#f97316"; emissive := "#f97316";
                                 emissiveIntensity := 8 # 10;
                                 transparent := false; opacity := 1;
                                 roughness := roughness mv; metalness := metalness mv |}
                            else if negb (isEmpty (trim (toLowerCase (Viewer.searchTerm st)))) &&
                                    includes (toLowerCase (name q))
                                      (trim (toLowerCase (Viewer.searchTerm st))) then
                              {| color := "#3b82f6"; emissive := "#3b82f6";
                                 emissiveIntensity := 5 # 10;
                                 transparent := false; opacity := 1;
                                 roughness := roughness mv; metalness := metalness mv |}
                            else
                              {| color := "#cccccc"; emissive := emissive mv;
                                 emissiveIntensity := emissiveIntensity mv;
                                 transparent := true; opacity := 1 # 10;
                                 roughness := 1; metalness := metalness mv |}))
            (nodes engineScene) (nodes root').
Proof.
  split; [vm_compute; reflexivity |]. split; [vm_compute; reflexivity |].
  split; [reflexivity |]. split; [reflexivity |]. intros st.
  apply (click_selects_the_clicked_mesh toLowerCase st plainProps engineScene engineHeap);
    vm_compute; reflexivity.
Defined.

Lemma metadata_id_replaces_the_uuid_witness :
  wfScene engineHeap engineScene = true ∧ cloneableScene engineScene = true ∧
  getKey "id" (extras (userData taggedProps)) = Some "mesh-Piston-002" ∧
  isEmpty "mesh-Piston-002" = false ∧
  ∀ st,
    Viewer.selection ByUuid (Viewer.handlePartSelect (clickedObject taggedProps) st)
      = Some "mesh-Piston-002" ∧
    ∃ root' h',
      highlightEffect toLowerCase ByUuid
        (Viewer.handlePartSelect (clickedObject taggedProps) st)
        (Some engineScene) engineHeap = (Some root', h', None) ∧
      Forall2 (λ q q', isMesh q = true →
                 ∃ c l mv, cache q' = Some c ∧ h' !! c = Some mv ∧
                           snapshotValue engineHeap q = Some mv ∧
                           material q' = MatOne l ∧ l ≠ c ∧ engineHeap !! l = None ∧
                           h' !! l = Some
                             (if String.eqb (uuid q) "mesh-Piston-002" then
                                {| color := "#f97316"; emissive := "#f97316";
                                   emissiveIntensity := 8 # 10;
                                   transparent := false; opacity := 1;
                                   roughness := roughness mv; metalness := metalness mv |}
                              else if negb (isEmpty (trim (toLowerCase (Viewer.searchTerm st)))) &&
                                      includes (toLowerCase (name q))
                                        (trim (toLowerCase (Viewer.searchTerm st))) then
                                {| color := "#3b82f6"; emissive := "#3b82f6";
                                   emissiveIntensity := 5 # 10;
                                   transparent := false; opacity := 1;
                                   roughness := roughness mv; metalness := metalness mv |}
                              else
                                {| color := "#cccccc"; emissive := emissive mv;
                                   emissiveIntensity := emissiveIntensity mv;
                                   transparent := true; opacity := 1 # 10;
                                   roughness := 1; metalness := metalness mv |}))
              (nodes engineScene) (nodes root').
Proof.
  split; [vm_compute; reflexivity |]. split; [vm_compute; reflexivity |].
  split; [reflexivity |]. split; [reflexivity |]. intros st.
  apply (metadata_id_replaces_the_uuid toLowerCase st taggedProps "mesh-Piston-002"
           engineScene engineHeap); vm_compute; reflexivity.
Defined.

Lemma reset_view_restores_witness :
  wfScene engineHeap engineScene = true ∧ cloneableScene engineScene = true ∧
  ∀ st, ∃ root' h',
    highlightEffect toLowerCase ByName (Panel.resetView st) (Some engineScene) engineHeap
      = (Some root', h', None) ∧
    Forall2 (λ p p', isMesh p = true →
               ∃ c mv, material p' = MatOne c ∧ cache p' = Some c ∧
                       h' !! c = Some mv ∧ snapshotValue engineHeap p = Some mv)
            (nodes engineScene) (nodes root').
Proof.
  split; [vm_compute; reflexivity |]. split; [vm_compute; reflexivity |]. intros st.
  apply (reset_view_restores ByName st engineScene engineHeap); vm_compute; reflexivity.
Defined.

Lemma click_on_demo_part_selects_it_alone_witness :
  let gear := Procedural.mkPart "Gear-Drive-Main" Procedural.torus
                [12 # 10; 3 # 10; 16; 100]%Q [0; 0; 21 # 10]%Q None "#fbbf24" in
  wfScene engineHeap engineScene = true ∧ cloneableScene engineScene = true ∧
  map name (filter (λ p, isMesh p = true) (nodes engineScene))
    = map Procedural.name (Procedural.parts "demo-engine") ∧
  In gear (Procedural.parts "demo-engine") ∧
  ∀ st, ∃ root' h',
    highlightEffect toLowerCase ByName
      (Viewer.handlePartSelect (clickedPart gear) (Viewer.setSearchTerm "" st))
      (Some engineScene) engineHeap = (Some root', h', None) ∧
    map (λ p, (name p, activeColor h' p)) (filter (λ p, isMesh p = true) (nodes root'))
    = map (λ q, (Procedural.name q,
                 Some (if String.eqb (Procedural.name q) (Procedural.name gear)
                       then "#f97316" else "#cccccc")))
          (Procedural.parts "demo-engine").
Proof.
  intros gear.
  assert (In gear (Procedural.parts "demo-engine")) as Hin
    by (vm_compute; do 5 right; left; reflexivity).
  split; [vm_compute; reflexivity |]. split; [vm_compute; reflexivity |].
  split; [vm_compute; reflexivity |]. split; [exact Hin |]. intros st.
  apply (click_on_demo_part_selects_it_alone "demo-engine" gear st engineScene engineHeap);
    [vm_compute; reflexivity | vm_compute; reflexivity | vm_compute; reflexivity | exact Hin].
Defined.
